(** * Escape-time rendering of filled Julia sets (julia.py)

    A shallow embedding of [julia.py] and the properties of its escape
    test, its symmetric grid computation and its colour mapper.

    Numbers.  The program is read twice.  In the first reading Python's
    [float] and [complex] are the real and complex numbers they
    approximate: arithmetic is exact and [abs] is the Euclidean modulus.
    It carries the properties that rest on the structure of the program:
    which pixels are evaluated, where the results are stored, what the
    flags select.  The escape counts stored in the numpy array are
    integers (numpy keeps them as floats that hold the same integers),
    and the one place where real arithmetic itself is undefined, the
    division of the grid by its maximum, keeps numpy's special values
    (see [float64] below).  In the second reading, [Float64], the escape
    test runs on IEEE 754 doubles, with rounding, overflow and the
    [OverflowError] of [abs]; it carries the properties that depend on
    the arithmetic. *)

From Stdlib Require Floats.
From Stdlib Require Import String Reals Lra Lia ZArith Bool Arith List.
From Equations Require Import Equations.
Import ListNotations.

(** ** Complex numbers *)

Record complex : Type := Cx { re : R; im : R }.

Declare Scope complex_scope.
Delimit Scope complex_scope with C.
Bind Scope complex_scope with complex.

Definition Cadd (a b : complex) : complex :=
  Cx (re a + re b) (im a + im b).

Definition Cmul (a b : complex) : complex :=
  Cx (re a * re b - im a * im b) (re a * im b + im a * re b).

(** [abs(z)] of a Python complex. *)
Definition Cabs (z : complex) : R :=
  sqrt (re z * re z + im z * im z).

(** A real operand of a mixed operation is promoted to a complex. *)
Definition RtoC (x : R) : complex := Cx x 0.

(** The literal [1j]. *)
Definition Cj : complex := Cx 0 1.

Infix "+" := Cadd : complex_scope.
Infix "*" := Cmul : complex_scope.

(** ** The iterated function and the escape test *)

(** [def f(z, c): return z*z + c] *)
Definition f (z c : complex) : complex := (z * z + c)%C.

Section Checkz.
Variables (c : complex) (r : R) (max_iter : Z).

(** The [while n <= max_iter] loop of [checkz], entered with the current
    [z] and [n].  It recurses on the number of values of [n] left up to
    [max_iter]. *)
Equations? checkz_loop (z : complex) (n : Z) : Z
  by wf (Z.to_nat (max_iter + 1 - n)) lt :=
  checkz_loop z n with Z_le_gt_dec n max_iter := {
    | left _ =>
        if Rgt_dec (Cabs (f z c)) r then n
        else checkz_loop (f z c) (n + 1)
    | right _ => 0%Z }.
Proof. lia. Qed.

End Checkz.

(** [def checkz(z, c, r, max_iter)] *)
Definition checkz (z c : complex) (r : R) (max_iter : Z) : Z :=
  checkz_loop c r max_iter z 1.

(** ** Exceptions *)

Inductive exn : Type := IndexError | ValueError | OverflowError | TypeError.

Inductive result (A : Type) : Type :=
| Ok (a : A)
| Raise (e : exn).
Arguments Ok {A} a.
Arguments Raise {A} e.

Definition bind {A B : Type} (m : result A) (k : A -> result B) : result B :=
  match m with
  | Ok a => k a
  | Raise e => Raise e
  end.

Notation "x <- m ;; k" := (bind m (fun x => k))
  (at level 61, m at next level, right associativity).

(** [for i in l: s = body(i, s)], stopping at the first exception. *)
Fixpoint for_each {S : Type} (l : list nat) (body : nat -> S -> result S)
  (s : S) : result S :=
  match l with
  | [] => Ok s
  | i :: l' => s' <- body i s ;; for_each l' body s'
  end.

(** [for i in range(n)] *)
Definition for_range {S : Type} (n : nat) (body : nat -> S -> result S)
  (s : S) : result S :=
  for_each (seq 0 n) body s.

(** ** Two-dimensional numpy arrays *)

(** Row-major: [a[i, j]] is element [j] of row [i]. *)
Definition array (A : Type) : Type := list (list A).

(** [numpy.zeros((rows, cols))], for whatever the zero of the cells is. *)
Definition zeros {A : Type} (zero : A) (rows cols : nat) : array A :=
  repeat (repeat zero cols) rows.

Fixpoint update {A : Type} (l : list A) (n : nat) (v : A) : list A :=
  match l, n with
  | [], _ => []
  | _ :: l', O => v :: l'
  | a :: l', S n' => a :: update l' n' v
  end.

(** numpy's reading of an index [i] on an axis of length [len]: [0..len-1]
    as they are, [-len..-1] counted from the end, anything else an
    [IndexError]. *)
Definition np_index (len : nat) (i : Z) : result nat :=
  if ((0 <=? i) && (i <? Z.of_nat len))%Z then Ok (Z.to_nat i)
  else if ((- Z.of_nat len <=? i) && (i <? 0))%Z
       then Ok (Z.to_nat (Z.of_nat len + i))
       else Raise IndexError.

(** [a[i, j]] *)
Definition getitem {A : Type} (a : array A) (i j : Z) : result A :=
  i' <- np_index (length a) i ;;
  match nth_error a i' with
  | None => Raise IndexError
  | Some row =>
      j' <- np_index (length row) j ;;
      match nth_error row j' with
      | None => Raise IndexError
      | Some v => Ok v
      end
  end.

(** [a[i, j] = v] *)
Definition setitem {A : Type} (a : array A) (i j : Z) (v : A)
  : result (array A) :=
  i' <- np_index (length a) i ;;
  match nth_error a i' with
  | None => Raise IndexError
  | Some row =>
      j' <- np_index (length row) j ;;
      Ok (update a i' (update row j' v))
  end.

(** ** The escape grid (first half of [main]) *)

(** [(x0, x1, y0, y1) = (-2, 2, -2, 2)] *)
Definition x0 : Z := -2.
Definition x1 : Z := 2.
Definition y0 : Z := -2.
Definition y1 : Z := 2.

(** [lo + (hi - lo) * pixel / res], with true division. *)
Definition coord (lo hi : Z) (pixel res : nat) : R :=
  IZR lo + IZR (hi - lo) * INR pixel / INR res.

(** [r = (1 + math.sqrt(1 + 4 * abs(c))) / 2] *)
Definition escape_radius (c : complex) : R :=
  (1 + sqrt (1 + 4 * Cabs c)) / 2.

Section Grid.
Variables (c : complex) (r : R) (max_iter : Z) (x_res y_res : nat).

(** [z = x + 1j * y] for the pixel [(xpixel, ypixel)]. *)
Definition pixel_z (xpixel ypixel : nat) : complex :=
  let x := coord x0 x1 xpixel x_res in
  let y := coord y0 y1 ypixel y_res in
  (RtoC x + Cj * RtoC y)%C.

(** The body of the double loop. *)
Definition pixel_step (xpixel ypixel : nat) (pixels : array Z)
  : result (array Z) :=
  let y := coord y0 y1 ypixel y_res in
  if Rlt_dec y 0 then Ok pixels
  else
    let z := pixel_z xpixel ypixel in
    let pix := checkz z c r max_iter in
    pixels <- setitem pixels (Z.of_nat ypixel) (Z.of_nat xpixel) pix ;;
    setitem pixels (- Z.of_nat ypixel) (- Z.of_nat xpixel) pix.

(** [for xpixel in range(x_res): for ypixel in range(y_res): ...] *)
Definition grid_loop (pixels : array Z) : result (array Z) :=
  for_range x_res (fun xpixel =>
    for_range y_res (fun ypixel => pixel_step xpixel ypixel)) pixels.

(** The assignments [pixels[i, j] = v] one iteration performs, in order,
    with the indices as the source writes them. *)
Definition pixel_writes (xpixel ypixel : nat) : list (Z * Z * Z) :=
  let y := coord y0 y1 ypixel y_res in
  if Rlt_dec y 0 then []
  else
    let pix := checkz (pixel_z xpixel ypixel) c r max_iter in
    [ (Z.of_nat ypixel, Z.of_nat xpixel, pix);
      ((- Z.of_nat ypixel)%Z, (- Z.of_nat xpixel)%Z, pix) ].

(** All assignments of the double loop, in execution order. *)
Definition grid_writes : list (Z * Z * Z) :=
  flat_map (fun xpixel =>
    flat_map (fun ypixel => pixel_writes xpixel ypixel) (seq 0 y_res))
    (seq 0 x_res).

End Grid.

(** The grid [main] holds when the double loop is over. *)
Definition escape_grid (resolution : nat) (c : complex) (max_iter : Z)
  : result (array Z) :=
  let x_res := resolution in
  let y_res := resolution in
  let r := escape_radius c in
  let pixels := zeros 0%Z y_res x_res in
  grid_loop c r max_iter x_res y_res pixels.

(** The cell an assignment lands on: numpy's reading of both indices on
    a [rows] by [cols] array. *)
Definition cell_of (rows cols : nat) (w : Z * Z * Z) : result (nat * nat) :=
  let '(i, j, _) := w in
  i' <- np_index rows i ;;
  j' <- np_index cols j ;;
  Ok (i', j').

(** Performing a list of assignments one after the other. *)
Fixpoint run_writes (ws : list (Z * Z * Z)) (a : array Z)
  : result (array Z) :=
  match ws with
  | [] => Ok a
  | (i, j, v) :: ws' => a' <- setitem a i j v ;; run_writes ws' a'
  end.

(** The grid cells the double loop writes, in execution order
    (a cell out of range would show as [None]). *)
Definition written_cells (resolution : nat) (c : complex) (max_iter : Z)
  : list (option (nat * nat)) :=
  map (fun w => match cell_of resolution resolution w with
                | Ok p => Some p
                | Raise _ => None
                end)
      (grid_writes c (escape_radius c) max_iter resolution resolution).

(** ** numpy floats with their special values *)

(** Finite values are real numbers; [Inf true] is minus infinity. *)
Inductive float64 : Type :=
| Fin (x : R)
| Inf (negative : bool)
| NaN.

Definition fadd (a b : float64) : float64 :=
  match a, b with
  | NaN, _ | _, NaN => NaN
  | Fin x, Fin y => Fin (x + y)
  | Inf s, Fin _ | Fin _, Inf s => Inf s
  | Inf s, Inf s' => if Bool.eqb s s' then Inf s else NaN
  end.

Definition fneg (a : float64) : float64 :=
  match a with
  | Fin x => Fin (- x)
  | Inf s => Inf (negb s)
  | NaN => NaN
  end.

Definition fsub (a b : float64) : float64 := fadd a (fneg b).

(** The sign of a product with an infinity whose sign bit is [s]. *)
Definition inf_times (s : bool) (x : R) : float64 :=
  if Rlt_dec 0 x then Inf s
  else if Rlt_dec x 0 then Inf (negb s)
  else NaN.

Definition fmul (a b : float64) : float64 :=
  match a, b with
  | NaN, _ | _, NaN => NaN
  | Fin x, Fin y => Fin (x * y)
  | Inf s, Fin x | Fin x, Inf s => inf_times s x
  | Inf s, Inf s' => Inf (xorb s s')
  end.

(** [a == b]: false as soon as a NaN is involved. *)
Definition feqb (a b : float64) : bool :=
  match a, b with
  | Fin x, Fin y => if Req_dec_T x y then true else false
  | Inf s, Inf s' => Bool.eqb s s'
  | _, _ => false
  end.

(** [a > b]: false as soon as a NaN is involved. *)
Definition fgtb (a b : float64) : bool :=
  match a, b with
  | Fin x, Fin y => if Rgt_dec x y then true else false
  | Inf false, Fin _ | Fin _, Inf true | Inf false, Inf true => true
  | _, _ => false
  end.

(** [int(x)] on a nonnegative or negative real: truncation towards 0. *)
Definition Rtrunc (x : R) : Z :=
  if Rle_dec 0 x then Int_part x else (- Int_part (- x))%Z.

(** [numpy.amax(a)]; numpy refuses an array without cells. *)
Definition amax (a : array Z) : result Z :=
  match concat a with
  | [] => Raise ValueError
  | v :: l => Ok (fold_left Z.max l v)
  end.

(** One cell of [numpy.divide(pixels, m)]: a zero divisor gives an
    infinity, or a NaN for [0 / 0], and a warning, not an exception. *)
Definition np_divide (p m : Z) : float64 :=
  if (m =? 0)%Z then
    if (p =? 0)%Z then NaN else Inf (p <? 0)%Z
  else Fin (IZR p / IZR m).

(** ** [colorsys.hsv_to_rgb] (Python's standard library) *)

Definition rgb : Type := (R * R * R)%type.

(** [i = int(h*6.0)] raises [ValueError] on a NaN and [OverflowError] on
    an infinity.  Falling off the end returns [None], which the caller
    cannot store in a float array. *)
Definition hsv_to_rgb (h : float64) (s v : R) : result rgb :=
  if Req_dec_T s 0 then Ok (v, v, v)
  else
    match fmul h (Fin 6) with
    | NaN => Raise ValueError
    | Inf _ => Raise OverflowError
    | Fin h6 =>
        let i := Rtrunc h6 in
        let f := (h6 - IZR i)%R in
        let p := (v * (1 - s))%R in
        let q := (v * (1 - s * f))%R in
        let t := (v * (1 - s * (1 - f)))%R in
        let i := (i mod 6)%Z in
        if (i =? 0)%Z then Ok (v, t, p)
        else if (i =? 1)%Z then Ok (q, v, p)
        else if (i =? 2)%Z then Ok (p, v, t)
        else if (i =? 3)%Z then Ok (p, q, v)
        else if (i =? 4)%Z then Ok (t, p, v)
        else if (i =? 5)%Z then Ok (v, p, q)
        else Raise TypeError
    end.

(** ** The colour mapper (the [if args.colour is True] block of [main]) *)

(** The colour of one cell of the normalised grid. *)
Definition colour_of (v hue_offset : float64) : result rgb :=
  if feqb v (Fin 0) then Ok (0%R, 0%R, 0%R)
  else
    let hue := fadd v hue_offset in
    let hue := if fgtb hue (Fin 1) then fsub hue (Fin 1) else hue in
    hsv_to_rgb hue 1 (1 / 2).

Definition colour_step (pixels : array float64) (hue_offset : float64)
  (xpixel ypixel : nat) (colour_pixels : array rgb) : result (array rgb) :=
  v <- getitem pixels (Z.of_nat ypixel) (Z.of_nat xpixel) ;;
  col <- colour_of v hue_offset ;;
  setitem colour_pixels (Z.of_nat ypixel) (Z.of_nat xpixel) col.

Definition colour_map (x_res y_res : nat) (pixels : array Z)
  (hue_offset : float64) : result (array rgb) :=
  m <- amax pixels ;;
  let pixels := map (map (fun p => np_divide p m)) pixels in
  let colour_pixels := zeros (0%R, 0%R, 0%R) y_res x_res in
  for_range x_res (fun xpixel =>
    for_range y_res (fun ypixel =>
      colour_step pixels hue_offset xpixel ypixel)) colour_pixels.

(** ** Command line and [main] *)

(** The Python objects an [argparse] flag can hold here. *)
Inductive pyobj : Type :=
| PyBool (b : bool)
| PyStr (s : string).

(** [o is True] *)
Definition is_True (o : pyobj) : bool :=
  match o with
  | PyBool true => true
  | _ => false
  end.

(** What [bool(o)] would give: an empty string and [False] are falsy. *)
Definition truthy (o : pyobj) : bool :=
  match o with
  | PyBool b => b
  | PyStr s => negb (String.eqb s "")
  end.

(** [action='store_true', default=d]: [True] when the option occurs on
    the command line, [d] otherwise. *)
Definition store_true (d : pyobj) (present : bool) : pyobj :=
  if present then PyBool true else d.

(** What the user typed, option by option. *)
Record cmdline : Type := {
  arg_c : complex;
  opt_iters : option Z;
  opt_resolution : option Z;
  opt_colour : bool;
  opt_offset : option float64;
  opt_smooth : bool
}.

(** The namespace [parser.parse_args()] returns. *)
Record namespace : Type := {
  ns_c : complex;
  iters : Z;
  resolution : Z;
  colour : pyobj;
  offset : float64;
  smooth : pyobj
}.

Definition parse_args (cl : cmdline) : namespace :=
  {| ns_c := arg_c cl;
     iters := match opt_iters cl with Some i => i | None => 512%Z end;
     resolution :=
       match opt_resolution cl with Some n => n | None => 1000%Z end;
     colour := store_true (PyStr "false") (opt_colour cl);
     offset :=
       match opt_offset cl with Some o => o | None => Fin (67 / 100) end;
     smooth := store_true (PyBool false) (opt_smooth cl) |}.

(** The array handed to the image writer. *)
Inductive image : Type :=
| Gray (a : array float64)
| Colour (a : array rgb).

Section Main.
(** [scipy.ndimage.filters.gaussian_filter(_, 1)] on a 2-D and on a 3-D
    array. *)
Variable gaussian_gray : array float64 -> array float64.
Variable gaussian_rgb : array rgb -> array rgb.

Definition gaussian_filter (img : image) : image :=
  match img with
  | Gray a => Gray (gaussian_gray a)
  | Colour a => Colour (gaussian_rgb a)
  end.

(** [numpy.flipud] *)
Definition flipud (img : image) : image :=
  match img with
  | Gray a => Gray (rev a)
  | Colour a => Colour (rev a)
  end.

(** [main] up to the call of [imsave]: the image it writes.
    [numpy.zeros] refuses a negative dimension. *)
Definition main (args : namespace) : result image :=
  if (resolution args <? 0)%Z then Raise ValueError
  else
    let x_res := Z.to_nat (resolution args) in
    let y_res := Z.to_nat (resolution args) in
    pixels <- escape_grid (Z.to_nat (resolution args)) (ns_c args)
                (iters args) ;;
    img <- (if is_True (colour args) then
              colour_pixels <- colour_map x_res y_res pixels (offset args) ;;
              Ok (Colour colour_pixels)
            else Ok (Gray (map (map (fun p => Fin (IZR p))) pixels))) ;;
    let img := if is_True (smooth args) then gaussian_filter img else img in
    Ok (flipud img).

End Main.

(** ** Double precision

    The escape test once more, this time on IEEE 754 doubles, the
    numbers Python computes with: every operation rounds, products can
    overflow to an infinity or give a NaN, and [abs] of a complex number
    raises [OverflowError] when the modulus of a finite value is too
    large for a double.  The properties that depend on the arithmetic
    are stated on this version. *)

Module Float64.
Import PrimFloat FloatOps SpecFloat.
Local Open Scope float_scope.

Record complex : Type := Cx { re : float; im : float }.

(** The sum of two Python complex numbers (C: [_Py_c_sum]). *)
Definition Cadd (a b : complex) : complex :=
  Cx (re a + re b) (im a + im b).

(** The product of two Python complex numbers (C: [_Py_c_prod]). *)
Definition Cmul (a b : complex) : complex :=
  Cx (re a * re b - im a * im b) (re a * im b + im a * re b).

(** [-z] *)
Definition Copp (z : complex) : complex := Cx (- re z) (- im z).

(** [def f(z, c): return z*z + c] *)
Definition f (z c : complex) : complex := Cadd (Cmul z z) c.

Section Libm.
(** The [hypot] of the C library, which [abs] calls; its last bit differs
    from one library to the next. *)
Variable hypot : float -> float -> float.

(** [abs(z)] (C: [_Py_c_abs], [complex_abs]): an infinite component wins
    over a NaN, and a finite [z] whose modulus is not finite raises. *)
Definition Cabs (z : complex) : result float :=
  if is_finite (re z) && is_finite (im z) then
    let result := hypot (re z) (im z) in
    if is_finite result then Ok result else Raise OverflowError
  else if is_infinity (re z) then Ok (abs (re z))
  else if is_infinity (im z) then Ok (abs (im z))
  else Ok nan.

Section Checkz.
Variables (c : complex) (r : float) (max_iter : Z).

(** The [while n <= max_iter] loop of [checkz]. *)
Equations? checkz_loop (z : complex) (n : Z) : result Z
  by wf (Z.to_nat (max_iter + 1 - n)) lt :=
  checkz_loop z n with Z_le_gt_dec n max_iter := {
    | left _ =>
        match Cabs (f z c) with
        | Raise e => Raise e
        | Ok a => if r <? a then Ok n else checkz_loop (f z c) (n + 1)
        end
    | right _ => Ok 0%Z }.
Proof. lia. Qed.

End Checkz.

(** [def checkz(z, c, r, max_iter)] *)
Definition checkz (z c : complex) (r : float) (max_iter : Z) : result Z :=
  checkz_loop c r max_iter z 1.

(** [math.sqrt(x)]: a negative argument is a domain error. *)
Definition math_sqrt (x : float) : result float :=
  if x <? 0 then Raise ValueError else Ok (sqrt x).

(** [r = (1 + math.sqrt(1 + 4 * abs(c))) / 2] *)
Definition escape_radius (c : complex) : result float :=
  a <- Cabs c ;;
  s <- math_sqrt (1 + 4 * a) ;;
  Ok ((1 + s) / 2).

(** Whether [abs(z) > r]. *)
Definition exceeds (r : float) (z : complex) : result bool :=
  a <- Cabs z ;; Ok (r <? a).

End Libm.

(** The map of the specification, [z -> z*z + c], written out, and its
    iterates: [iterate c k z0] is the [z] of the specification after [k]
    rounds. *)
Definition square_plus (c z : complex) : complex :=
  Cx (re z * re z - im z * im z + re c) (re z * im z + im z * re z + im c).

Fixpoint iterate (c : complex) (k : nat) (z : complex) : complex :=
  match k with
  | O => z
  | S k' => iterate c k' (square_plus c z)
  end.

(** A [hypot] one can compute with: the correctly rounded one, the
    double nearest to the exact square root of [x*x + y*y]. *)
Definition hypot_finite (mx : positive) (ex : Z) (my : positive) (ey : Z)
  : spec_float :=
  let e := Z.min (2 * ex) (2 * ey) in
  let n := (Z.shiftl (Zpos mx * Zpos mx) (2 * ex - e) +
            Z.shiftl (Zpos my * Zpos my) (2 * ey - e))%Z in
  match n with
  | Zpos p => SFsqrt prec emax (S754_finite false p e)
  | _ => S754_nan
  end.

Definition hypot_cr (x y : float) : float :=
  match Prim2SF x, Prim2SF y with
  | S754_infinity _, _ | _, S754_infinity _ => infinity
  | S754_nan, _ | _, S754_nan => nan
  | S754_zero _, _ => abs y
  | _, S754_zero _ => abs x
  | S754_finite _ mx ex, S754_finite _ my ey =>
      SF2Prim (hypot_finite mx ex my ey)
  end.

(** Some doubles used as examples: [0], [3 * 2^1022 * (1 + i)], which is
    finite but whose modulus is not, [1 + 2^-600 i], just outside the
    unit circle, and a point whose correctly rounded modulus is the
    double next above 1. *)
Definition C0 : complex := Cx 0 0.
Definition huge : complex := Cx (Z.ldexp 3 1022) (Z.ldexp 3 1022).
Definition tilted : complex := Cx 1 (Z.ldexp 1 (-600)).
Definition near_circle : complex :=
  Cx 0x1.3d287a396bd55p-2 0x1.e6d2b37073332p-1.

(** The real number a finite double stands for (0 for the others). *)
Definition to_R (x : float) : R :=
  match Prim2SF x with
  | S754_finite s m e =>
      ((if s then -1 else 1) * IZR (Zpos m) * powerRZ 2 e)%R
  | _ => 0%R
  end.

End Float64.

(** ** Vocabulary of the properties *)

(** [orbit c k z] is [f] applied [k] times to [z]: the value of [z] after
    [k] rounds of the loop of [checkz]. *)
Fixpoint orbit (c : complex) (k : nat) (z : complex) : complex :=
  match k with
  | O => z
  | S k' => orbit c k' (f z c)
  end.

(** The index a negated pixel number lands on: [-0] is 0 and [-k] is
    [n - k], that is [(n - k) mod n]. *)
Definition mirror (n k : nat) : nat := ((n - k) mod n)%nat.

(** An array of [rows] rows of [cols] cells each. *)
Definition shape {A : Type} (rows cols : nat) (a : array A) : Prop :=
  length a = rows /\ Forall (fun row => length row = cols) a.

(** The cell at row [y], column [x], when there is one. *)
Definition lookup {A : Type} (a : array A) (y x : nat) : option A :=
  match nth_error a y with
  | Some row => nth_error row x
  | None => None
  end.

(** What the double loop keeps true of the grid: its shape, the point
    symmetry, and the zeros of row 0. *)
Definition symmetric (res : nat) (a : array Z) : Prop :=
  forall y x, (y < res)%nat -> (x < res)%nat ->
    lookup a y x = lookup a (mirror res y) (mirror res x).

Definition row0_zero (res : nat) (a : array Z) : Prop :=
  forall x, (x < res)%nat -> lookup a 0 x = Some 0%Z.

Definition grid_inv (res : nat) (a : array Z) : Prop :=
  shape res res a /\ symmetric res a /\ row0_zero res a.

(** The cells one iteration writes, by pixel numbers alone. *)
Definition cells_of_pixel (res xpixel ypixel : nat)
  : list (option (nat * nat)) :=
  if (2 * ypixel <? res)%nat then []
  else [ Some (ypixel, xpixel);
         Some (mirror res ypixel, mirror res xpixel) ].

Definition cells_of_grid (res : nat) : list (option (nat * nat)) :=
  flat_map (fun xpixel =>
    flat_map (fun ypixel => cells_of_pixel res xpixel ypixel) (seq 0 res))
    (seq 0 res).

(** [-z] *)
Definition Copp (z : complex) : complex := Cx (- re z) (- im z).

(** The escape count the double loop leaves in a cell [(y, x)] away from
    row 0 and from the middle row: in the rows above the middle, the
    count of the cell's own pixel; in the rows below, the count of the
    pixel whose mirrored assignment lands on the cell. *)
Definition settled_cell (c : complex) (max_iter : Z) (res y x : nat) : Z :=
  if (2 * y <? res)%nat
  then checkz (pixel_z res res (mirror res x) (res - y)) c
              (escape_radius c) max_iter
  else checkz (pixel_z res res x y) c (escape_radius c) max_iter.

(** Whether the assignment [w] lands on cell [(y, x)]. *)
Definition lands (rows cols y x : nat) (w : Z * Z * Z) : bool :=
  match cell_of rows cols w with
  | Ok (y', x') => ((y' =? y) && (x' =? x))%nat
  | Raise _ => false
  end.

(** Cell [(y, x)] of the colour array [cp] holds the colour of cell
    [(y, x)] of the grid [pixels] divided by [m]. *)
Definition coloured (pixels : array Z) (m : Z) (hue_offset : float64)
  (cp : array rgb) (y x : nat) : Prop :=
  exists p col,
    lookup pixels y x = Some p /\
    colour_of (np_divide p m) hue_offset = Ok col /\
    lookup cp y x = Some col.

(** A command line used as an example: [julia.py 0 -r 4]. *)
Definition example_cmdline : cmdline :=
  {| arg_c := Cx 0 0; opt_iters := None;
     opt_resolution := Some 4%Z; opt_colour := false;
     opt_offset := None; opt_smooth := false |}.

(** * Properties *)

(** ** The escape test *)

Lemma checkz_loop_step c r max_iter z n :
  checkz_loop c r max_iter z n =
  if (n <=? max_iter)%Z then
    if Rgt_dec (Cabs (f z c)) r then n
    else checkz_loop c r max_iter (f z c) (n + 1)
  else 0%Z.
Proof.
  rewrite checkz_loop_equation_1.
  destruct (Z_le_gt_dec n max_iter) as [Hle | Hgt];
    cbn [checkz_loop_unfold_clause_1];
    destruct (Z.leb_spec n max_iter); try lia; reflexivity.
Qed.

(** What the loop returns when entered at [n] with [z]: the first round,
    counted from [n], whose value exceeds [r], or 0 when the rounds up to
    [max_iter] never do. *)
Lemma checkz_loop_spec c r max_iter :
  forall (m : nat) (z : complex) (n : Z),
    m = Z.to_nat (max_iter + 1 - n) ->
    (checkz_loop c r max_iter z n = 0%Z /\
     forall k : nat, (1 <= k)%nat -> (n + Z.of_nat k - 1 <= max_iter)%Z ->
       (Cabs (orbit c k z) <= r)%R)
    \/
    (exists k : nat, (1 <= k)%nat /\
       checkz_loop c r max_iter z n = (n + Z.of_nat k - 1)%Z /\
       (n + Z.of_nat k - 1 <= max_iter)%Z /\
       (Cabs (orbit c k z) > r)%R /\
       forall j : nat, (1 <= j < k)%nat -> (Cabs (orbit c j z) <= r)%R).
Proof.
  induction m as [| m IH]; intros z n Hm; rewrite checkz_loop_step.
  - destruct (Z.leb_spec n max_iter) as [Hle | Hgt]; [lia |].
    left. split; [reflexivity |]. intros k Hk Hb. lia.
  - destruct (Z.leb_spec n max_iter) as [Hle | Hgt]; [| lia].
    destruct (Rgt_dec (Cabs (f z c)) r) as [Hesc | Hin].
    + right. exists 1%nat. simpl. repeat split; try lia; try assumption.
    + assert (Hm' : m = Z.to_nat (max_iter + 1 - (n + 1))) by lia.
      destruct (IH (f z c) (n + 1)%Z Hm')
        as [[H0 Hall] | (k & Hk & Hres & Hb & Hesc & Hbefore)].
      * left. split; [exact H0 |].
        intros [| k] Hk Hb; [lia |]. simpl.
        destruct k as [| k]; [simpl; lra |].
        apply Hall; lia.
      * right. exists (S k). repeat split; try lia.
        -- exact Hesc.
        -- intros [| j] Hj; [lia |]. simpl.
           destruct j as [| j]; [simpl; lra |].
           apply Hbefore. lia.
Qed.

(** The result of the loop lies between 0 and the larger of [n - 1] and
    [max_iter]. *)
Lemma checkz_loop_range c r max_iter :
  forall (m : nat) (z : complex) (n : Z),
    m = Z.to_nat (max_iter + 1 - n) -> (1 <= n)%Z ->
    (checkz_loop c r max_iter z n = 0 \/
     n <= checkz_loop c r max_iter z n <= max_iter)%Z.
Proof.
  intros m z n Hm Hn.
  destruct (checkz_loop_spec c r max_iter m z n Hm)
    as [[H0 _] | (k & Hk & Hres & Hb & _)]; [left; exact H0 | right; lia].
Qed.

(** ** The escape radius and the case [c = 0] *)

Lemma Cabs_zero : Cabs (Cx 0 0) = 0%R.
Proof.
  unfold Cabs; simpl.
  replace (0 * 0 + 0 * 0)%R with 0%R by ring. apply sqrt_0.
Qed.

Lemma escape_radius_zero : escape_radius (Cx 0 0) = 1%R.
Proof.
  unfold escape_radius. rewrite Cabs_zero.
  replace (1 + 4 * 0)%R with 1%R by ring. rewrite sqrt_1. lra.
Qed.

(** With [c = 0] one round squares the modulus. *)
Lemma Cabs_f_zero (z : complex) :
  Cabs (f z (Cx 0 0)) = (re z * re z + im z * im z)%R.
Proof.
  destruct z as [a b]. unfold f, Cabs, Cadd, Cmul; simpl.
  replace ((a * a - b * b + 0) * (a * a - b * b + 0) +
           (a * b + b * a + 0) * (a * b + b * a + 0))%R
    with ((a * a + b * b) * (a * a + b * b))%R by ring.
  apply sqrt_square. nra.
Qed.

(** ** Lists, indices and arrays *)

Lemma length_update {A : Type} (l : list A) (n : nat) (v : A) :
  length (update l n v) = length l.
Proof.
  revert n; induction l as [| a l IH]; intros [| n]; simpl; auto.
Qed.

Lemma nth_error_update {A : Type} (l : list A) (n k : nat) (v : A) :
  (n < length l)%nat ->
  nth_error (update l n v) k =
  if (k =? n)%nat then Some v else nth_error l k.
Proof.
  revert n k; induction l as [| a l IH]; intros n k Hn; simpl in Hn;
    [lia |].
  destruct n as [| n], k as [| k]; simpl; try reflexivity.
  apply IH. lia.
Qed.

Lemma mirror_cases (n k : nat) :
  (k < n)%nat ->
  mirror n k = if (k =? 0)%nat then 0%nat else (n - k)%nat.
Proof.
  intros Hk. unfold mirror. destruct (Nat.eqb_spec k 0) as [-> | Hk0].
  - rewrite Nat.sub_0_r. apply Nat.Div0.mod_same.
  - apply Nat.mod_small. lia.
Qed.

Lemma mirror_lt (n k : nat) : (k < n)%nat -> (mirror n k < n)%nat.
Proof.
  intros Hk. rewrite mirror_cases by exact Hk.
  destruct (Nat.eqb_spec k 0); lia.
Qed.

Lemma mirror_involutive (n k : nat) :
  (k < n)%nat -> mirror n (mirror n k) = k.
Proof.
  intros Hk. rewrite (mirror_cases n k Hk).
  destruct (Nat.eqb_spec k 0) as [-> | Hk0].
  - rewrite mirror_cases by lia. reflexivity.
  - rewrite mirror_cases by lia.
    destruct (Nat.eqb_spec (n - k) 0); lia.
Qed.

Lemma np_index_pos (n k : nat) :
  (k < n)%nat -> np_index n (Z.of_nat k) = Ok k.
Proof.
  intros Hk. unfold np_index.
  destruct (Z.leb_spec 0 (Z.of_nat k)); [| lia].
  destruct (Z.ltb_spec (Z.of_nat k) (Z.of_nat n)); [| lia].
  simpl. rewrite Nat2Z.id. reflexivity.
Qed.

Lemma np_index_neg (n k : nat) :
  (k < n)%nat -> np_index n (- Z.of_nat k) = Ok (mirror n k).
Proof.
  intros Hk. rewrite mirror_cases by exact Hk. unfold np_index.
  destruct (Nat.eqb_spec k 0) as [-> | Hk0].
  - simpl. destruct (Z.ltb_spec 0 (Z.of_nat n)); [| lia]. reflexivity.
  - destruct (Z.leb_spec 0 (- Z.of_nat k)); [lia |].
    destruct (Z.leb_spec (- Z.of_nat n) (- Z.of_nat k)); [| lia].
    destruct (Z.ltb_spec (- Z.of_nat k) 0); [| lia].
    simpl. f_equal. lia.
Qed.

Lemma shape_row {A : Type} (rows cols : nat) (a : array A) (y : nat) :
  shape rows cols a -> (y < rows)%nat ->
  exists row, nth_error a y = Some row /\ length row = cols.
Proof.
  intros [Hlen Hall] Hy.
  destruct (nth_error a y) as [row |] eqn:E.
  - exists row. split; [reflexivity |].
    rewrite Forall_forall in Hall. apply Hall.
    eapply nth_error_In; exact E.
  - apply nth_error_None in E. lia.
Qed.

Lemma shape_lookup {A : Type} (rows cols : nat) (a : array A) (y x : nat) :
  shape rows cols a -> (y < rows)%nat -> (x < cols)%nat ->
  exists v, lookup a y x = Some v.
Proof.
  intros Hs Hy Hx. destruct (shape_row rows cols a y Hs Hy) as (row & E & Hl).
  unfold lookup. rewrite E.
  destruct (nth_error row x) as [v |] eqn:Ex; [exists v; reflexivity |].
  apply nth_error_None in Ex. lia.
Qed.

Lemma shape_zeros {A : Type} (zero : A) (rows cols : nat) :
  shape rows cols (zeros zero rows cols).
Proof.
  unfold shape, zeros. split; [apply repeat_length |].
  apply Forall_forall. intros row Hin. apply repeat_spec in Hin.
  subst row. apply repeat_length.
Qed.

Lemma lookup_zeros {A : Type} (zero : A) (rows cols y x : nat) :
  (y < rows)%nat -> (x < cols)%nat ->
  lookup (zeros zero rows cols) y x = Some zero.
Proof.
  intros Hy Hx. unfold lookup, zeros.
  rewrite nth_error_repeat by exact Hy.
  apply nth_error_repeat. exact Hx.
Qed.

(** [getitem] on indices in range reads the cell. *)
Lemma getitem_lookup {A : Type} (rows cols : nat) (a : array A)
  (y x : nat) (v : A) :
  shape rows cols a -> (y < rows)%nat -> (x < cols)%nat ->
  lookup a y x = Some v ->
  getitem a (Z.of_nat y) (Z.of_nat x) = Ok v.
Proof.
  intros Hs Hy Hx Hv. destruct (shape_row rows cols a y Hs Hy) as (row & E & Hl).
  unfold getitem. destruct Hs as [Hlen _].
  rewrite Hlen, np_index_pos by exact Hy. simpl. rewrite E.
  rewrite Hl, np_index_pos by exact Hx. simpl.
  unfold lookup in Hv. rewrite E in Hv. rewrite Hv. reflexivity.
Qed.

(** [setitem] on indices that numpy reads as [(y, x)] succeeds, keeps the
    shape and changes that cell only. *)
Lemma setitem_spec {A : Type} (rows cols : nat) (a : array A)
  (i j : Z) (y x : nat) (v : A) :
  shape rows cols a ->
  np_index rows i = Ok y -> (y < rows)%nat ->
  np_index cols j = Ok x -> (x < cols)%nat ->
  exists a',
    setitem a i j v = Ok a' /\ shape rows cols a' /\
    forall y' x',
      lookup a' y' x' =
      if ((y' =? y) && (x' =? x))%nat then Some v else lookup a y' x'.
Proof.
  intros Hs Hi Hy Hj Hx. destruct (shape_row rows cols a y Hs Hy) as (row & E & Hl).
  pose proof Hs as [Hlen Hall].
  unfold setitem. rewrite Hlen, Hi. simpl. rewrite E, Hl, Hj. simpl.
  eexists. split; [reflexivity |]. split.
  - split; [rewrite length_update; exact Hlen |].
    apply Forall_forall. intros row' Hin.
    apply In_nth_error in Hin. destruct Hin as [k Hk].
    rewrite nth_error_update in Hk by lia.
    destruct (Nat.eqb_spec k y).
    + injection Hk as <-. rewrite length_update. exact Hl.
    + rewrite Forall_forall in Hall. apply Hall.
      eapply nth_error_In; exact Hk.
  - intros y' x'. unfold lookup.
    rewrite nth_error_update by lia.
    destruct (Nat.eqb_spec y' y) as [-> | Hne]; simpl.
    + rewrite nth_error_update by lia. rewrite E.
      destruct (Nat.eqb_spec x' x) as [-> | Hnx]; reflexivity.
    + reflexivity.
Qed.

(** ** The double loop *)

(** Row [ypixel] is skipped exactly when it lies in the lower half. *)
Lemma coord_y_lt_0 (res ypixel : nat) :
  (0 < res)%nat ->
  (coord y0 y1 ypixel res < 0)%R <-> (2 * ypixel < res)%nat.
Proof.
  intros Hres. unfold coord, y0, y1. simpl (2 - -2)%Z.
  assert (Hr : (0 < INR res)%R) by (apply lt_0_INR; lia).
  assert (Hq : (4 * INR ypixel / INR res * INR res = 4 * INR ypixel)%R)
    by (field; lra).
  split.
  - intros H. apply INR_lt. rewrite mult_INR. simpl (INR 2).
    assert (H2 : (4 * INR ypixel / INR res * INR res < 2 * INR res)%R)
      by (apply Rmult_lt_compat_r; lra).
    lra.
  - intros H. apply lt_INR in H. rewrite mult_INR in H.
    simpl (INR 2) in H.
    assert (H2 : (4 * INR ypixel / INR res < 2)%R).
    { apply (Rmult_lt_reg_r (INR res)); [exact Hr |]. lra. }
    lra.
Qed.

Lemma pixel_step_skip c r max_iter res xpixel ypixel (pixels : array Z) :
  (0 < res)%nat -> (2 * ypixel < res)%nat ->
  pixel_step c r max_iter res res xpixel ypixel pixels = Ok pixels.
Proof.
  intros Hres Hy. unfold pixel_step.
  destruct (Rlt_dec (coord y0 y1 ypixel res) 0) as [_ | Hn];
    [reflexivity |].
  exfalso. apply Hn. apply coord_y_lt_0; assumption.
Qed.

(** An iteration that is not skipped stores its escape count in the cell
    of the pixel and in the mirrored cell, and touches nothing else. *)
Lemma pixel_step_write c r max_iter res xpixel ypixel (pixels : array Z) :
  shape res res pixels ->
  (xpixel < res)%nat -> (ypixel < res)%nat -> (res <= 2 * ypixel)%nat ->
  exists pixels',
    pixel_step c r max_iter res res xpixel ypixel pixels = Ok pixels' /\
    shape res res pixels' /\
    forall y x,
      lookup pixels' y x =
      if ((y =? mirror res ypixel) && (x =? mirror res xpixel))%nat
      then Some (checkz (pixel_z res res xpixel ypixel) c r max_iter)
      else if ((y =? ypixel) && (x =? xpixel))%nat
      then Some (checkz (pixel_z res res xpixel ypixel) c r max_iter)
      else lookup pixels y x.
Proof.
  intros Hs Hx Hy Hup. unfold pixel_step.
  destruct (Rlt_dec (coord y0 y1 ypixel res) 0) as [Hlt | _].
  { apply coord_y_lt_0 in Hlt; lia. }
  cbv zeta.
  destruct (setitem_spec res res pixels (Z.of_nat ypixel) (Z.of_nat xpixel)
              ypixel xpixel
              (checkz (pixel_z res res xpixel ypixel) c r max_iter) Hs)
    as (p1 & E1 & Hs1 & L1); auto using np_index_pos.
  rewrite E1. simpl.
  destruct (setitem_spec res res p1 (- Z.of_nat ypixel) (- Z.of_nat xpixel)
              (mirror res ypixel) (mirror res xpixel)
              (checkz (pixel_z res res xpixel ypixel) c r max_iter) Hs1)
    as (p2 & E2 & Hs2 & L2); auto using np_index_neg, mirror_lt.
  exists p2. split; [exact E2 |]. split; [exact Hs2 |].
  intros y x. rewrite L2, L1. reflexivity.
Qed.

Lemma for_each_inv {S : Type} (P : S -> Prop) (l : list nat)
  (body : nat -> S -> result S) :
  (forall i s, In i l -> P s -> exists s', body i s = Ok s' /\ P s') ->
  forall s, P s -> exists s', for_each l body s = Ok s' /\ P s'.
Proof.
  induction l as [| i l IH]; intros Hbody s Hs; simpl.
  - exists s. split; [reflexivity | exact Hs].
  - destruct (Hbody i s (or_introl eq_refl) Hs) as (s1 & E1 & P1).
    rewrite E1. simpl. apply IH; [| exact P1].
    intros j s' Hj. apply Hbody. right. exact Hj.
Qed.

Ltac mirror_facts res k :=
  let H := fresh "Hm" in
  assert (H : (k < res)%nat) by lia;
  apply (mirror_cases res k) in H;
  destruct (Nat.eqb_spec k 0).

Lemma pixel_step_inv c r max_iter res xpixel ypixel (pixels : array Z) :
  (xpixel < res)%nat -> (ypixel < res)%nat ->
  grid_inv res pixels ->
  exists pixels',
    pixel_step c r max_iter res res xpixel ypixel pixels = Ok pixels' /\
    grid_inv res pixels'.
Proof.
  intros Hx Hy (Hs & Hsym & Hrow).
  destruct (Nat.lt_ge_cases (2 * ypixel) res) as [Hlow | Hup].
  { exists pixels. split; [apply pixel_step_skip; lia |].
    repeat split; try apply Hs; assumption. }
  destruct (pixel_step_write c r max_iter res xpixel ypixel pixels
              Hs Hx Hy Hup) as (p & E & Hs' & L).
  exists p. split; [exact E |]. split; [exact Hs' |]. split.
  - intros y x Hyr Hxr. rewrite !L.
    pose proof (mirror_involutive res y Hyr) as Iy.
    pose proof (mirror_involutive res x Hxr) as Ix.
    pose proof (mirror_involutive res ypixel Hy) as Iyp.
    pose proof (mirror_involutive res xpixel Hx) as Ixp.
    repeat match goal with
           | |- context [Nat.eqb ?a ?b] => destruct (Nat.eqb_spec a b)
           end; simpl; try reflexivity; try congruence.
    all: apply Hsym; assumption.
  - intros x Hxr. rewrite L.
    mirror_facts res ypixel; [lia |].
    destruct (Nat.eqb_spec 0 (mirror res ypixel)); [lia |].
    destruct (Nat.eqb_spec 0 ypixel); [lia |]. simpl.
    apply Hrow. exact Hxr.
Qed.

(** The double loop never raises, and its grid has the three properties. *)
Lemma escape_grid_inv (res : nat) (c : complex) (max_iter : Z) :
  exists G, escape_grid res c max_iter = Ok G /\ grid_inv res G.
Proof.
  unfold escape_grid, grid_loop, for_range. cbv zeta.
  apply for_each_inv with (P := grid_inv res).
  - intros xpixel pixels Hx Hinv. apply in_seq in Hx.
    apply for_each_inv with (P := grid_inv res); [| exact Hinv].
    intros ypixel p Hy Hp. apply in_seq in Hy.
    apply pixel_step_inv; [lia | lia | exact Hp].
  - split; [apply shape_zeros |]. split.
    + intros y x Hy Hx.
      rewrite !lookup_zeros by (try apply mirror_lt; assumption).
      reflexivity.
    + intros x Hx. apply lookup_zeros; lia.
Qed.

Lemma mirror_Z (n k : nat) :
  ((Z.of_nat n - Z.of_nat k) mod Z.of_nat n)%Z = Z.of_nat (mirror n k) \/
  (n <= k)%nat.
Proof.
  destruct (Nat.lt_ge_cases k n) as [Hk | Hk]; [left | right; exact Hk].
  unfold mirror. rewrite Nat2Z.inj_mod, Nat2Z.inj_sub by lia. reflexivity.
Qed.

(** C2: the grid the double loop leaves is invariant under the point
    reflection: for every resolution [R], [c] and [max_iter] the loop ends
    without an exception with a grid [G] such that
    [G[y][x] == G[(R - y) mod R][(R - x) mod R]] for all [x, y < R]. *)
Theorem escape_grid_symmetry (R : nat) (c : complex) (max_iter : Z) :
  exists G,
    escape_grid R c max_iter = Ok G /\
    forall y x : nat, (y < R)%nat -> (x < R)%nat ->
      exists v,
        getitem G (Z.of_nat y) (Z.of_nat x) = Ok v /\
        getitem G ((Z.of_nat R - Z.of_nat y) mod Z.of_nat R)
                  ((Z.of_nat R - Z.of_nat x) mod Z.of_nat R) = Ok v.
Proof.
  destruct (escape_grid_inv R c max_iter) as (G & E & Hs & Hsym & _).
  exists G. split; [exact E |]. intros y x Hy Hx.
  destruct (shape_lookup R R G y x Hs Hy Hx) as [v Hv].
  exists v. split.
  - apply getitem_lookup with (rows := R) (cols := R); assumption.
  - destruct (mirror_Z R y) as [-> | ?]; [| lia].
    destruct (mirror_Z R x) as [-> | ?]; [| lia].
    apply getitem_lookup with (rows := R) (cols := R);
      try apply mirror_lt; try assumption.
    rewrite <- Hsym by assumption. exact Hv.
Qed.

Lemma escape_grid_symmetry_witness :
  exists G,
    escape_grid 4 (Cx 0 0) 10 = Ok G /\
    exists v,
      getitem G 3 1 = Ok v /\
      getitem G ((4 - 3) mod 4) ((4 - 1) mod 4) = Ok v.
Proof.
  destruct (escape_grid_symmetry 4 (Cx 0 0) 10) as (G & E & H).
  exists G. split; [exact E |].
  apply (H 3%nat 1%nat); lia.
Defined.

(** ** The sequence of assignments *)

Lemma run_writes_app (ws1 ws2 : list (Z * Z * Z)) (a : array Z) :
  run_writes (ws1 ++ ws2) a = a' <- run_writes ws1 a ;; run_writes ws2 a'.
Proof.
  revert a; induction ws1 as [| [[i j] v] ws1 IH]; intros a; simpl;
    [reflexivity |].
  destruct (setitem a i j v) as [a1 | e]; simpl; [apply IH | reflexivity].
Qed.

Lemma for_each_run (g : nat -> list (Z * Z * Z))
  (body : nat -> array Z -> result (array Z)) (l : list nat) :
  (forall i a, body i a = run_writes (g i) a) ->
  forall a, for_each l body a = run_writes (flat_map g l) a.
Proof.
  intros Hbody. induction l as [| i l IH]; intros a; simpl;
    [reflexivity |].
  rewrite run_writes_app, Hbody.
  destruct (run_writes (g i) a) as [a1 | e]; simpl;
    [apply IH | reflexivity].
Qed.

Lemma pixel_step_run c r max_iter x_res y_res xpixel ypixel
  (pixels : array Z) :
  pixel_step c r max_iter x_res y_res xpixel ypixel pixels =
  run_writes (pixel_writes c r max_iter x_res y_res xpixel ypixel) pixels.
Proof.
  unfold pixel_step, pixel_writes.
  destruct (Rlt_dec (coord y0 y1 ypixel y_res) 0); [reflexivity |].
  cbv zeta. simpl.
  destruct (setitem pixels _ _ _) as [p1 | e]; simpl; [| reflexivity].
  destruct (setitem p1 _ _ _) as [p2 | e]; reflexivity.
Qed.

(** The double loop does nothing but perform [grid_writes] in order. *)
Lemma grid_loop_run c r max_iter x_res y_res (pixels : array Z) :
  grid_loop c r max_iter x_res y_res pixels =
  run_writes (grid_writes c r max_iter x_res y_res) pixels.
Proof.
  unfold grid_loop, grid_writes, for_range.
  apply for_each_run. intros xpixel a.
  apply for_each_run. intros ypixel a'. apply pixel_step_run.
Qed.

Lemma map_flat_map_in {A B C : Type} (F : B -> C) (g : A -> list B)
  (h : A -> list C) (l : list A) :
  (forall a, In a l -> map F (g a) = h a) ->
  map F (flat_map g l) = flat_map h l.
Proof.
  induction l as [| a l IH]; intros H; simpl; [reflexivity |].
  rewrite map_app, H by (left; reflexivity).
  f_equal. apply IH. intros b Hb. apply H. right. exact Hb.
Qed.

Lemma written_cells_eq (res : nat) (c : complex) (max_iter : Z) :
  written_cells res c max_iter = cells_of_grid res.
Proof.
  unfold written_cells, grid_writes, cells_of_grid.
  apply map_flat_map_in. intros xpixel Hx. apply in_seq in Hx.
  apply map_flat_map_in. intros ypixel Hy. apply in_seq in Hy.
  unfold pixel_writes, cells_of_pixel.
  destruct (Rlt_dec (coord y0 y1 ypixel res) 0) as [Hlt | Hge];
    destruct (Nat.ltb_spec (2 * ypixel) res) as [Hlow | Hup];
    try reflexivity.
  - apply coord_y_lt_0 in Hlt; lia.
  - exfalso. apply Hge. apply coord_y_lt_0; lia.
  - cbv zeta. simpl. unfold cell_of.
    rewrite !np_index_pos, !np_index_neg by lia. reflexivity.
Qed.

Lemma in_cells_of_pixel (res xpixel ypixel : nat) (p : option (nat * nat)) :
  In p (cells_of_pixel res xpixel ypixel) <->
  (res <= 2 * ypixel)%nat /\
  (p = Some (ypixel, xpixel) \/
   p = Some (mirror res ypixel, mirror res xpixel)).
Proof.
  unfold cells_of_pixel.
  destruct (Nat.ltb_spec (2 * ypixel) res) as [Hlow | Hup]; simpl.
  - split; [tauto | lia].
  - split.
    + intros [H | [H | []]]; split; auto.
    + intros [_ [H | H]]; auto.
Qed.

Lemma NoDup_flat_map {A B : Type} (g : A -> list B) (l : list A) :
  NoDup l ->
  (forall a, In a l -> NoDup (g a)) ->
  (forall a b x, In a l -> In b l -> In x (g a) -> In x (g b) -> a = b) ->
  NoDup (flat_map g l).
Proof.
  induction 1 as [| a l Hnotin Hnd IH]; intros Heach Hdisj; simpl;
    [constructor |].
  apply NoDup_app.
  - apply Heach. left. reflexivity.
  - apply IH.
    + intros b Hb. apply Heach. right. exact Hb.
    + intros b b' x Hb Hb'. apply Hdisj; right; assumption.
  - intros x Hx Hx'. apply in_flat_map in Hx'.
    destruct Hx' as (b & Hb & Hxb).
    assert (a = b)
      by (apply (Hdisj a b x); [left; reflexivity | right | |]; assumption).
    subst b. contradiction.
Qed.

Lemma NoDup_flat_map_inv {A B : Type} (g : A -> list B) (l : list A) (a : A) :
  NoDup (flat_map g l) -> In a l -> NoDup (g a).
Proof.
  induction l as [| b l IH]; simpl; intros Hnd Hin; [contradiction |].
  destruct Hin as [-> | Hin].
  - eapply NoDup_app_remove_r. exact Hnd.
  - apply IH; [| exact Hin]. eapply NoDup_app_remove_l. exact Hnd.
Qed.

(** Two iterations that write a common cell are the same iteration, when
    the resolution is odd. *)
Lemma cells_of_pixel_inj (res xp yp xp' yp' : nat) (p : option (nat * nat)) :
  Nat.odd res = true ->
  (xp < res)%nat -> (yp < res)%nat -> (xp' < res)%nat -> (yp' < res)%nat ->
  In p (cells_of_pixel res xp yp) -> In p (cells_of_pixel res xp' yp') ->
  xp = xp' /\ yp = yp'.
Proof.
  intros Hodd Hx Hy Hx' Hy' H H'.
  apply Nat.odd_spec in Hodd. destruct Hodd as [k Hk].
  apply in_cells_of_pixel in H. apply in_cells_of_pixel in H'.
  destruct H as [Hup Hp], H' as [Hup' Hp'].
  pose proof (mirror_cases res xp Hx) as Mx.
  pose proof (mirror_cases res yp Hy) as My.
  pose proof (mirror_cases res xp' Hx') as Mx'.
  pose proof (mirror_cases res yp' Hy') as My'.
  destruct (Nat.eqb_spec xp 0), (Nat.eqb_spec yp 0),
    (Nat.eqb_spec xp' 0), (Nat.eqb_spec yp' 0);
    destruct Hp as [-> | ->], Hp' as [Hp' | Hp'];
    injection Hp' as E1 E2; lia.
Qed.

Lemma NoDup_cells_of_pixel (res xp yp : nat) :
  Nat.odd res = true -> (yp < res)%nat ->
  NoDup (cells_of_pixel res xp yp).
Proof.
  intros Hodd Hy. unfold cells_of_pixel.
  destruct (Nat.ltb_spec (2 * yp) res) as [Hlow | Hup]; [constructor |].
  apply Nat.odd_spec in Hodd. destruct Hodd as [k Hk].
  pose proof (mirror_cases res yp Hy) as My.
  destruct (Nat.eqb_spec yp 0); [lia |].
  constructor; [| constructor; [intros [] | constructor]].
  intros [E | []]. injection E as E1 E2. lia.
Qed.

Lemma NoDup_cells_of_grid (res : nat) :
  Nat.odd res = true -> NoDup (cells_of_grid res).
Proof.
  intros Hodd. unfold cells_of_grid.
  apply NoDup_flat_map; [apply seq_NoDup | |].
  - intros xp Hx. apply in_seq in Hx.
    apply NoDup_flat_map; [apply seq_NoDup | |].
    + intros yp Hy. apply in_seq in Hy.
      apply NoDup_cells_of_pixel; [exact Hodd | lia].
    + intros yp yp' p Hy Hy' Hp Hp'. apply in_seq in Hy, Hy'.
      apply (cells_of_pixel_inj res xp yp xp yp' p); try assumption; lia.
  - intros xp xp' p Hx Hx' Hp Hp'. apply in_seq in Hx, Hx'.
    apply in_flat_map in Hp, Hp'.
    destruct Hp as (yp & Hy & Hp), Hp' as (yp' & Hy' & Hp').
    apply in_seq in Hy, Hy'.
    apply (cells_of_pixel_inj res xp yp xp' yp' p); try assumption; lia.
Qed.

(** With an even resolution the iteration for column 0 of the middle row
    writes one cell twice. *)
Lemma dup_cells_of_grid (res : nat) :
  (1 <= res)%nat -> Nat.odd res = false -> ~ NoDup (cells_of_grid res).
Proof.
  intros Hres Heven Hnd.
  assert (Hev : Nat.even res = true)
    by (rewrite <- Nat.negb_odd, Heven; reflexivity).
  apply Nat.even_spec in Hev. destruct Hev as [k Hk].
  unfold cells_of_grid in Hnd.
  apply NoDup_flat_map_inv with (a := 0%nat) in Hnd;
    [| apply in_seq; lia].
  apply NoDup_flat_map_inv with (a := k) in Hnd; [| apply in_seq; lia].
  unfold cells_of_pixel in Hnd.
  destruct (Nat.ltb_spec (2 * k) res) as [Hlow | _]; [lia |].
  rewrite (mirror_cases res k), (mirror_cases res 0) in Hnd by lia.
  destruct (Nat.eqb_spec k 0); [lia |]. simpl in Hnd.
  replace (res - k)%nat with k in Hnd by lia.
  inversion Hnd as [| ? ? Hnotin _]. apply Hnotin. left. reflexivity.
Qed.

(** C5 (as amended): for every resolution [R >= 1] the cells written by
    the double loop are pairwise distinct if and only if [R] is odd; the
    loop itself is the run of these assignments, in order, on the array
    of zeros. *)
Theorem writes_disjoint_iff_odd (R : nat) (c : complex) (max_iter : Z) :
  (1 <= R)%nat ->
  escape_grid R c max_iter =
    run_writes (grid_writes c (escape_radius c) max_iter R R)
               (zeros 0%Z R R) /\
  (NoDup (written_cells R c max_iter) <-> Nat.odd R = true).
Proof.
  intros HR. split; [apply grid_loop_run |].
  rewrite written_cells_eq. split.
  - intros Hnd. destruct (Nat.odd R) eqn:E; [reflexivity |].
    exfalso. exact (dup_cells_of_grid R HR E Hnd).
  - apply NoDup_cells_of_grid.
Qed.

Lemma writes_disjoint_iff_odd_witness :
  (1 <= 3)%nat /\
  (NoDup (written_cells 3 (Cx 0 0) 10) <-> Nat.odd 3 = true).
Proof.
  split; [lia |].
  apply (proj2 (writes_disjoint_iff_odd 3 (Cx 0 0) 10 (le_S _ _ (le_S _ _ (le_n 1))))).
Defined.

(** C5 (as stated) fails: with resolution 2 the loop writes the cell
    (1, 0) twice in the iteration [xpixel = 0, ypixel = 1], and the cell
    (1, 1) twice in the next one. *)
Lemma writes_not_disjoint_at_2 :
  written_cells 2 (Cx 0 0) 10 =
    [Some (1, 0); Some (1, 0); Some (1, 1); Some (1, 1)]%nat /\
  ~ NoDup (written_cells 2 (Cx 0 0) 10).
Proof.
  rewrite written_cells_eq. split; [reflexivity |].
  apply dup_cells_of_grid; [lia | reflexivity].
Qed.

Lemma not_in_row0 (res x : nat) : ~ In (Some (0%nat, x)) (cells_of_grid res).
Proof.
  unfold cells_of_grid. intros H.
  apply in_flat_map in H. destruct H as (xp & Hx & H).
  apply in_flat_map in H. destruct H as (yp & Hy & H).
  apply in_seq in Hx, Hy. apply in_cells_of_pixel in H.
  destruct H as [Hup H].
  pose proof (mirror_cases res yp) as My.
  destruct (Nat.eqb_spec yp 0); [lia |].
  destruct H as [H | H]; injection H as E1 E2; lia.
Qed.

Lemma shape_1_1 (a : array Z) (v : Z) :
  shape 1 1 a -> lookup a 0 0 = Some v -> a = [[v]].
Proof.
  intros [Hlen Hall] Hv.
  destruct a as [| row [| row' a]]; simpl in Hlen; try discriminate.
  inversion Hall as [| ? ? Hrow _]; subst.
  destruct row as [| w [| w' row]]; simpl in Hrow; try discriminate.
  unfold lookup in Hv; simpl in Hv. congruence.
Qed.

(** C10: whatever the resolution, [c] and [max_iter], no assignment of
    the double loop lands in row 0, and row 0 of the resulting grid is all
    zeros; with resolution 1 the whole grid is the single cell 0. *)
Theorem row0_untouched (R : nat) (c : complex) (max_iter : Z) :
  exists G,
    escape_grid R c max_iter = Ok G /\
    (forall x : nat, ~ In (Some (0%nat, x)) (written_cells R c max_iter)) /\
    (forall x : nat, (x < R)%nat -> getitem G 0 (Z.of_nat x) = Ok 0%Z) /\
    (R = 1%nat -> G = [[0%Z]]).
Proof.
  destruct (escape_grid_inv R c max_iter) as (G & E & Hs & _ & Hrow).
  exists G. split; [exact E |]. split; [| split].
  - intros x. rewrite written_cells_eq. apply not_in_row0.
  - intros x Hx.
    apply (getitem_lookup R R G 0 x 0%Z Hs); [lia | exact Hx |].
    apply Hrow. exact Hx.
  - intros ->. apply shape_1_1; [exact Hs |]. apply Hrow. lia.
Qed.

Lemma row0_untouched_witness :
  exists G,
    escape_grid 1 (Cx 1 1) 10 = Ok G /\
    getitem G 0 0 = Ok 0%Z /\ G = [[0%Z]].
Proof.
  destruct (row0_untouched 1 (Cx 1 1) 10) as (G & E & _ & Hrow & H1).
  exists G. split; [exact E |]. split.
  - apply (Hrow 0%nat). constructor.
  - apply H1. reflexivity.
Defined.

(** ** The scenario [c = 0], resolution 4, 10 iterations *)

(** With [c = 0] and [r = 1] a starting value inside the closed unit
    disc never escapes: its modulus can only shrink. *)
Lemma checkz_loop_unit_disc (max_iter : Z) :
  forall (m : nat) (z : complex) (n : Z),
    m = Z.to_nat (max_iter + 1 - n) ->
    (re z * re z + im z * im z <= 1)%R ->
    checkz_loop (Cx 0 0) 1 max_iter z n = 0%Z.
Proof.
  induction m as [| m IH]; intros z n Hm Hz; rewrite checkz_loop_step;
    destruct (Z.leb_spec n max_iter) as [Hle | Hgt];
    try reflexivity; try lia.
  assert (Hsq : (0 <= re z * re z + im z * im z)%R) by nra.
  destruct (Rgt_dec (Cabs (f z (Cx 0 0))) 1) as [Hesc | _].
  - rewrite Cabs_f_zero in Hesc. lra.
  - apply IH; [lia |].
    destruct z as [a b]. unfold f, Cadd, Cmul; simpl in *.
    replace ((a * a - b * b + 0) * (a * a - b * b + 0) +
             (a * b + b * a + 0) * (a * b + b * a + 0))%R
      with ((a * a + b * b) * (a * a + b * b))%R by ring.
    nra.
Qed.

(** The escape count for [c = 0], [r = 1]: 1 outside the closed unit
    disc, 0 inside. *)
Lemma checkz_c_zero (z : complex) (max_iter : Z) :
  (1 <= max_iter)%Z ->
  checkz z (Cx 0 0) 1 max_iter =
  if Rgt_dec (re z * re z + im z * im z) 1 then 1%Z else 0%Z.
Proof.
  intros Hmi. unfold checkz.
  destruct (Rgt_dec (re z * re z + im z * im z) 1) as [Hout | Hin].
  - rewrite checkz_loop_step.
    destruct (Z.leb_spec 1 max_iter); [| lia].
    destruct (Rgt_dec (Cabs (f z (Cx 0 0))) 1) as [_ | Hno];
      [reflexivity |].
    exfalso. apply Hno. rewrite Cabs_f_zero. exact Hout.
  - apply checkz_loop_unit_disc with (m := Z.to_nat (max_iter + 1 - 1));
      [reflexivity | lra].
Qed.

Lemma pixel_z_4 (xpixel ypixel : nat) :
  pixel_z 4 4 xpixel ypixel = Cx (INR xpixel - 2) (INR ypixel - 2).
Proof.
  unfold pixel_z, coord, x0, x1, y0, y1, RtoC, Cj, Cadd, Cmul. simpl.
  f_equal; field.
Qed.

Lemma pixel_writes_cases c r max_iter res xpixel ypixel :
  (0 < res)%nat ->
  pixel_writes c r max_iter res res xpixel ypixel =
  if (2 * ypixel <? res)%nat then []
  else
    [ (Z.of_nat ypixel, Z.of_nat xpixel,
       checkz (pixel_z res res xpixel ypixel) c r max_iter);
      ((- Z.of_nat ypixel)%Z, (- Z.of_nat xpixel)%Z,
       checkz (pixel_z res res xpixel ypixel) c r max_iter) ].
Proof.
  intros Hres. unfold pixel_writes.
  destruct (Rlt_dec (coord y0 y1 ypixel res) 0) as [Hlt | Hge];
    destruct (Nat.ltb_spec (2 * ypixel) res) as [Hlow | Hup];
    try reflexivity.
  - apply coord_y_lt_0 in Hlt; lia.
  - exfalso. apply Hge. apply coord_y_lt_0; lia.
Qed.

Ltac decide_escapes :=
  repeat match goal with
         | |- context [Rgt_dec ?a ?b] =>
             destruct (Rgt_dec a b); [try (exfalso; lra) | try (exfalso; lra)]
         end.

(** The assignments of the scenario, with their values. *)
Lemma grid_writes_scenario :
  grid_writes (Cx 0 0) (escape_radius (Cx 0 0)) 10 4 4 =
  [ (2, 0, 1); (-2, 0, 1); (3, 0, 1); (-3, 0, 1);
    (2, 1, 0); (-2, -1, 0); (3, 1, 1); (-3, -1, 1);
    (2, 2, 0); (-2, -2, 0); (3, 2, 0); (-3, -2, 0);
    (2, 3, 0); (-2, -3, 0); (3, 3, 1); (-3, -3, 1) ]%Z.
Proof.
  rewrite escape_radius_zero. unfold grid_writes.
  cbn [seq flat_map app].
  rewrite !pixel_writes_cases by lia.
  cbn [Nat.ltb Nat.leb Nat.mul Nat.add app].
  rewrite !checkz_c_zero by lia. rewrite !pixel_z_4.
  cbn [re im INR].
  decide_escapes; reflexivity.
Qed.

Lemma escape_grid_scenario :
  escape_grid 4 (Cx 0 0) 10 =
  Ok [ [0; 0; 0; 0];
       [1; 1; 0; 1];
       [1; 0; 0; 0];
       [1; 1; 0; 1] ]%Z.
Proof.
  unfold escape_grid. cbv zeta.
  rewrite grid_loop_run, grid_writes_scenario. reflexivity.
Qed.

(** C4 (as amended): for [c = 0], resolution 4 and [max_iter = 10] the
    rows 0 to 3 of the escape grid are [0 0 0 0], [1 1 0 1], [1 0 0 0] and
    [1 1 0 1]: the sampled points of modulus above 1 escape in the first
    round, the others never. *)
Theorem scenario_grid :
  escape_grid 4 (Cx 0 0) 10 =
  Ok [ [0; 0; 0; 0];
       [1; 1; 0; 1];
       [1; 0; 0; 0];
       [1; 1; 0; 1] ]%Z.
Proof. exact escape_grid_scenario. Qed.

(** C4 (as stated) fails: the grid of the scenario is not all zeros; its
    cell in row 2, column 0 (the point [-2 + 0i]) holds 1. *)
Lemma scenario_grid_not_zero :
  escape_grid 4 (Cx 0 0) 10 <> Ok (zeros 0%Z 4 4) /\
  exists G, escape_grid 4 (Cx 0 0) 10 = Ok G /\ getitem G 2 0 = Ok 1%Z.
Proof.
  rewrite escape_grid_scenario. split.
  - intros H. discriminate H.
  - eexists. split; reflexivity.
Qed.

(** ** The colour mapper *)







(** A positive cell of the normalised grid is a finite value in (0, 1],
    and a zero cell is 0, when the maximum is positive. *)
Lemma np_divide_range (p m : Z) :
  (0 <= p <= m)%Z -> (0 < m)%Z ->
  exists v, np_divide p m = Fin v /\ (0 <= v <= 1)%R /\
            (v = 0%R <-> p = 0%Z).
Proof.
  intros Hp Hm. unfold np_divide.
  destruct (Z.eqb_spec m 0) as [E | _]; [lia |].
  assert (Hmr : (0 < IZR m)%R) by (apply IZR_lt; exact Hm).
  assert (Hpr : (0 <= IZR p <= IZR m)%R) by (split; apply IZR_le; lia).
  exists (IZR p / IZR m)%R. split; [reflexivity |]. split; [split |].
  - apply Rmult_le_pos; [lra |].
    apply Rlt_le, Rinv_0_lt_compat. exact Hmr.
  - apply (Rmult_le_reg_r (IZR m)); [exact Hmr |].
    unfold Rdiv. rewrite Rmult_assoc, Rinv_l by lra. lra.
  - split.
    + intros H0. apply eq_IZR.
      apply (Rmult_eq_compat_r (IZR m)) in H0.
      unfold Rdiv in H0. rewrite Rmult_assoc, Rinv_l in H0 by lra. lra.
    + intros ->. unfold Rdiv. ring.
Qed.

(** *** The grid of zeros *)

Lemma bind_Ok {A B : Type} (a : A) (k : A -> result B) :
  bind (Ok a) k = k a.
Proof. reflexivity. Qed.

Lemma fold_max_zeros (l : list Z) :
  Forall (fun v => v = 0%Z) l -> fold_left Z.max l 0%Z = 0%Z.
Proof.
  induction 1 as [| v l -> _ IH]; simpl; [reflexivity | exact IH].
Qed.

Lemma amax_zeros (n m : nat) :
  amax (zeros 0%Z (S n) (S m)) = Ok 0%Z.
Proof.
  unfold amax.
  assert (Hall : Forall (fun v => v = 0%Z) (concat (zeros 0%Z (S n) (S m)))).
  { apply Forall_forall. intros v Hv.
    apply in_concat in Hv. destruct Hv as (row & Hrow & Hv).
    unfold zeros in Hrow. apply repeat_spec in Hrow. subst row.
    apply repeat_spec in Hv. exact Hv. }
  destruct (concat (zeros 0%Z (S n) (S m))) as [| v l] eqn:E.
  - unfold zeros in E. simpl in E. discriminate E.
  - inversion Hall as [| ? ? Hv Hl]; subst.
    f_equal. apply fold_max_zeros. exact Hl.
Qed.

(** The colour of a NaN cell: [int()] refuses it. *)
Lemma colour_of_NaN (hue_offset : float64) :
  colour_of NaN hue_offset = Raise ValueError.
Proof.
  unfold colour_of, hsv_to_rgb. simpl.
  destruct (Req_dec_T 1 0) as [H | _]; [lra | reflexivity].
Qed.

(** Normalising a grid of zeros turns every cell into a NaN, and the
    mapper stops at its first cell. *)
Lemma colour_map_zeros_ValueError (n : nat) (hue_offset : float64) :
  colour_map (S n) (S n) (zeros 0%Z (S n) (S n)) hue_offset =
  Raise ValueError.
Proof.
  unfold colour_map. rewrite amax_zeros, bind_Ok. cbv zeta.
  unfold for_range. cbn [seq for_each].
  unfold colour_step at 1.
  assert (Hget :
    getitem (map (map (fun p => np_divide p 0))
                 (zeros 0%Z (S n) (S n))) (Z.of_nat 0) (Z.of_nat 0)
    = Ok NaN).
  { apply getitem_lookup with (rows := S n) (cols := S n); try lia.
    - split.
      + rewrite length_map. apply shape_zeros.
      + apply Forall_forall. intros row Hrow.
        apply in_map_iff in Hrow. destruct Hrow as (row0 & <- & Hin).
        rewrite length_map.
        destruct (shape_zeros 0%Z (S n) (S n)) as [_ Hall].
        rewrite Forall_forall in Hall. apply Hall. exact Hin.
    - reflexivity. }
  rewrite Hget, bind_Ok, colour_of_NaN. reflexivity.
Qed.

(** ** The command line *)

Lemma escape_grid_1 (c : complex) (max_iter : Z) :
  escape_grid 1 c max_iter = Ok [[0%Z]].
Proof.
  destruct (escape_grid_inv 1 c max_iter) as (G & E & Hs & _ & Hrow).
  rewrite E. f_equal. apply shape_1_1; [exact Hs |]. apply Hrow. lia.
Qed.

(** From the command line: resolution 1 with [--colour] ends in the
    [ValueError], whatever [c], the number of iterations, the offset and
    the smoothing. *)
Lemma main_resolution_1_colour
  (gg : array float64 -> array float64) (gr : array rgb -> array rgb)
  (c : complex) (i : option Z) (o : option float64) (s : bool) :
  main gg gr (parse_args {| arg_c := c; opt_iters := i;
                            opt_resolution := Some 1%Z; opt_colour := true;
                            opt_offset := o; opt_smooth := s |})
  = Raise ValueError.
Proof.
  unfold main, parse_args. cbn [resolution ns_c iters colour offset smooth].
  change (Z.to_nat 1) with 1%nat. cbn [Z.ltb Z.compare store_true is_True].
  rewrite escape_grid_1, bind_Ok.
  rewrite (colour_map_zeros_ValueError 0). reflexivity.
Qed.

(** C6 (the code at the failing input): on a grid of zeros with at least
    one cell the normalisation divides 0 by 0, every cell becomes a NaN,
    which is not equal to 0, and the mapper stops with the [ValueError]
    of [int(nan)] at its first cell, whatever the offset.  No image, black
    or not, is produced. *)
Theorem colour_map_zeros_raises (n : nat) (hue_offset : float64) :
  colour_map (S n) (S n) (zeros 0%Z (S n) (S n)) hue_offset =
  Raise ValueError.
Proof. apply colour_map_zeros_ValueError. Qed.

(** C8: [--colour] is a flag that is off by default: the test
    [args.colour is True] that guards the colouring holds exactly when the
    option was given, although the default ['false'] is a truthy string;
    without the option [main] hands a grayscale array to the writer, with
    it only a colour array can reach the writer. *)
Theorem colour_flag
  (gg : array float64 -> array float64) (gr : array rgb -> array rgb)
  (cl : cmdline) :
  is_True (colour (parse_args cl)) = opt_colour cl /\
  truthy (colour (parse_args cl)) = true /\
  (opt_colour cl = false -> (0 <= resolution (parse_args cl))%Z ->
   exists g, main gg gr (parse_args cl) = Ok (Gray g)) /\
  (opt_colour cl = true ->
   forall img, main gg gr (parse_args cl) = Ok img ->
   exists a, img = Colour a).
Proof.
  split; [| split; [| split]].
  - destruct cl as [c i n col o s]; destruct col; reflexivity.
  - destruct cl as [c i n col o s]; destruct col; reflexivity.
  - intros Hcol Hres. unfold main.
    destruct (Z.ltb_spec (resolution (parse_args cl)) 0) as [? | _];
      [lia |].
    destruct (escape_grid_inv (Z.to_nat (resolution (parse_args cl)))
                (ns_c (parse_args cl)) (iters (parse_args cl)))
      as (G & E & _).
    rewrite E, bind_Ok.
    replace (is_True (colour (parse_args cl))) with false
      by (destruct cl as [c i n col o s]; simpl in Hcol; subst col;
          reflexivity).
    rewrite bind_Ok.
    destruct (is_True (smooth (parse_args cl))); simpl; eexists;
      reflexivity.
  - intros Hcol img. unfold main.
    destruct (Z.ltb_spec (resolution (parse_args cl)) 0) as [? | _];
      [discriminate |].
    destruct (escape_grid _ _ _) as [G | e]; [| discriminate].
    rewrite bind_Ok.
    replace (is_True (colour (parse_args cl))) with true
      by (destruct cl as [c i n col o s]; simpl in Hcol; subst col;
          reflexivity).
    destruct (colour_map _ _ _ _) as [cp | e]; [| discriminate].
    rewrite !bind_Ok.
    destruct (is_True (smooth (parse_args cl))); simpl;
      intros H; injection H as <-; eexists; reflexivity.
Qed.

Lemma colour_flag_witness :
  opt_colour example_cmdline = false /\
  (0 <= resolution (parse_args example_cmdline))%Z /\
  exists g,
    main (fun a => a) (fun a => a) (parse_args example_cmdline)
    = Ok (Gray g).
Proof.
  assert (H1 : opt_colour example_cmdline = false) by reflexivity.
  assert (H2 : (0 <= resolution (parse_args example_cmdline))%Z)
    by (simpl; lia).
  split; [exact H1 |]. split; [exact H2 |].
  exact (proj1 (proj2 (proj2
           (colour_flag (fun a => a) (fun a => a) example_cmdline))) H1 H2).
Defined.

(** * Further properties *)

(** ** The escape test and the iteration cap *)

(** One round in, [checkz] has forgotten everything about its starting
    value except its image under [f]. *)
Lemma checkz_f_eq (z z' c : complex) (r : R) (max_iter : Z) :
  f z c = f z' c -> checkz z c r max_iter = checkz z' c r max_iter.
Proof.
  intros Hf. unfold checkz.
  rewrite (checkz_loop_step c r max_iter z),
          (checkz_loop_step c r max_iter z'), Hf.
  reflexivity.
Qed.

Lemma f_opp (z c : complex) : f (Copp z) c = f z c.
Proof.
  destruct z as [a b]. unfold f, Copp, Cadd, Cmul; simpl.
  f_equal; ring.
Qed.

(** A starting value and its opposite have the same escape count: the
    fact behind the mirrored assignment of the double loop. *)
Theorem checkz_opp (z c : complex) (r : R) (max_iter : Z) :
  checkz (Copp z) c r max_iter = checkz z c r max_iter.
Proof. apply checkz_f_eq, f_opp. Qed.

(** With a cap below 1 the loop body never runs: the result is 0 even
    for a starting value that escapes at once. *)
Theorem checkz_no_rounds (z c : complex) (r : R) (max_iter : Z) :
  (max_iter < 1)%Z -> checkz z c r max_iter = 0%Z.
Proof.
  intros Hmi. unfold checkz. rewrite checkz_loop_step.
  destruct (Z.leb_spec 1 max_iter); [lia | reflexivity].
Qed.

Lemma checkz_no_rounds_witness :
  (0 < 1)%Z /\ checkz (Cx 2 0) (Cx 0 0) 1 0 = 0%Z.
Proof. split; [lia |]. apply checkz_no_rounds. lia. Defined.




(** ** What each cell of the grid holds *)

Lemma in_grid_writes c r max_iter res (i j u : Z) :
  In (i, j, u) (grid_writes c r max_iter res res) <->
  exists xp yp : nat,
    (xp < res)%nat /\ (yp < res)%nat /\ (res <= 2 * yp)%nat /\
    u = checkz (pixel_z res res xp yp) c r max_iter /\
    ((i = Z.of_nat yp /\ j = Z.of_nat xp) \/
     (i = (- Z.of_nat yp)%Z /\ j = (- Z.of_nat xp)%Z)).
Proof.
  unfold grid_writes. rewrite in_flat_map. split.
  - intros (xp & Hx & H). apply in_flat_map in H.
    destruct H as (yp & Hy & H). apply in_seq in Hx, Hy.
    rewrite pixel_writes_cases in H by lia.
    destruct (Nat.ltb_spec (2 * yp) res) as [? | Hup]; [contradiction |].
    exists xp, yp. repeat split; try lia.
    + destruct H as [H | [H | []]]; congruence.
    + destruct H as [H | [H | []]]; injection H as <- <- _; auto.
  - intros (xp & yp & Hx & Hy & Hup & -> & H).
    exists xp. split; [apply in_seq; lia |].
    apply in_flat_map. exists yp. split; [apply in_seq; lia |].
    rewrite pixel_writes_cases by lia.
    destruct (Nat.ltb_spec (2 * yp) res) as [? | _]; [lia |].
    destruct H as [[-> ->] | [-> ->]]; simpl; auto.
Qed.

Lemma cell_of_Ok (rows cols : nat) (i j u : Z) (y x : nat) :
  cell_of rows cols (i, j, u) = Ok (y, x) <->
  np_index rows i = Ok y /\ np_index cols j = Ok x.
Proof.
  unfold cell_of.
  destruct (np_index rows i) as [y' | e], (np_index cols j) as [x' | e'];
    simpl; split; try discriminate; try (intros [H1 H2]; discriminate).
  - intros H. injection H as -> ->. auto.
  - intros [H1 H2]. congruence.
Qed.

(** After a run of assignments that all land inside the array, a cell no
    assignment landed on is unchanged, and a cell on which every
    assignment landing there stored [v] holds [v]. *)
Lemma run_writes_lookup (res : nat) :
  forall (ws : list (Z * Z * Z)) (a : array Z),
    shape res res a ->
    (forall w, In w ws ->
       exists y x, cell_of res res w = Ok (y, x) /\
                   (y < res)%nat /\ (x < res)%nat) ->
    exists a',
      run_writes ws a = Ok a' /\ shape res res a' /\
      forall y x,
        (existsb (lands res res y x) ws = false ->
         lookup a' y x = lookup a y x) /\
        (forall v,
           (forall w, In w ws -> lands res res y x w = true -> snd w = v) ->
           existsb (lands res res y x) ws = true ->
           lookup a' y x = Some v).
Proof.
  induction ws as [| [[i j] u] ws IH]; intros a Hs Hin.
  - exists a. split; [reflexivity |]. split; [exact Hs |].
    intros y x. split; [reflexivity | discriminate].
  - destruct (Hin (i, j, u) (or_introl eq_refl)) as (y0 & x0 & Hc & Hy0 & Hx0).
    pose proof Hc as Hc'. apply cell_of_Ok in Hc'. destruct Hc' as [Hi Hj].
    destruct (setitem_spec res res a i j y0 x0 u Hs Hi Hy0 Hj Hx0)
      as (a1 & E1 & Hs1 & L1).
    destruct (IH a1 Hs1) as (a' & E' & Hs' & L').
    { intros w Hw. apply Hin. right. exact Hw. }
    exists a'. split; [simpl; rewrite E1; exact E' |].
    split; [exact Hs' |].
    intros y x. destruct (L' y x) as [Lno Lyes].
    assert (Hl : lands res res y x (i, j, u)
                 = ((y =? y0) && (x =? x0))%nat).
    { unfold lands. rewrite Hc.
      rewrite (Nat.eqb_sym y0 y), (Nat.eqb_sym x0 x). reflexivity. }
    simpl existsb. rewrite Hl. split.
    + intros H. apply orb_false_iff in H. destruct H as [H1 H2].
      rewrite (Lno H2), L1, H1. reflexivity.
    + intros v Hall H.
      destruct (existsb (lands res res y x) ws) eqn:Ex.
      * apply Lyes; [| reflexivity].
        intros w Hw. apply Hall. right. exact Hw.
      * rewrite orb_false_r in H.
        rewrite (Lno eq_refl), L1, H.
        f_equal. apply (Hall (i, j, u) (or_introl eq_refl)).
        rewrite Hl. exact H.
Qed.

(** Every assignment that lands on a cell outside the middle row stores
    the value [settled_cell] gives for it. *)
Lemma landing_value c max_iter res (y x : nat) (w : Z * Z * Z) :
  (y < res)%nat -> (x < res)%nat -> (2 * y <> res)%nat ->
  In w (grid_writes c (escape_radius c) max_iter res res) ->
  lands res res y x w = true ->
  snd w = settled_cell c max_iter res y x.
Proof.
  intros Hy Hx Hmid Hin Hl. destruct w as [[i j] u]. simpl.
  apply in_grid_writes in Hin.
  destruct Hin as (xp & yp & Hxp & Hyp & Hup & -> & Hij).
  unfold lands in Hl. unfold settled_cell.
  destruct Hij as [[-> ->] | [-> ->]].
  - unfold cell_of in Hl. rewrite !np_index_pos in Hl by lia.
    simpl in Hl. apply andb_true_iff in Hl. destruct Hl as [E1 E2].
    apply Nat.eqb_eq in E1, E2. subst yp xp.
    destruct (Nat.ltb_spec (2 * y) res); [lia | reflexivity].
  - unfold cell_of in Hl. rewrite !np_index_neg in Hl by lia.
    simpl in Hl. apply andb_true_iff in Hl. destruct Hl as [E1 E2].
    apply Nat.eqb_eq in E1, E2. subst x.
    rewrite mirror_involutive by exact Hxp.
    rewrite mirror_cases in E1 by lia.
    destruct (Nat.eqb_spec yp 0); [lia |].
    destruct (Nat.ltb_spec (2 * y) res); [| lia].
    replace (res - y)%nat with yp by lia. reflexivity.
Qed.

(** Every cell below row 0 is landed on at least once. *)
Lemma landing_exists c max_iter res (y x : nat) :
  (1 <= y < res)%nat -> (x < res)%nat ->
  existsb (lands res res y x)
          (grid_writes c (escape_radius c) max_iter res res) = true.
Proof.
  intros Hy Hx. apply existsb_exists.
  destruct (Nat.lt_ge_cases (2 * y) res) as [Hlow | Hup].
  - exists ((- Z.of_nat (res - y))%Z, (- Z.of_nat (mirror res x))%Z,
            checkz (pixel_z res res (mirror res x) (res - y)) c
                   (escape_radius c) max_iter).
    pose proof (mirror_lt res x Hx) as Hm.
    split.
    + apply in_grid_writes. exists (mirror res x), (res - y)%nat.
      repeat split; lia.
    + unfold lands, cell_of. rewrite !np_index_neg by lia. simpl.
      rewrite mirror_involutive by exact Hx.
      rewrite (mirror_cases res (res - y)) by lia.
      destruct (Nat.eqb_spec (res - y) 0); [lia |].
      replace (res - (res - y))%nat with y by lia.
      rewrite !Nat.eqb_refl. reflexivity.
  - exists (Z.of_nat y, Z.of_nat x,
            checkz (pixel_z res res x y) c (escape_radius c) max_iter).
    split.
    + apply in_grid_writes. exists x, y.
      repeat split; lia.
    + unfold lands, cell_of. rewrite !np_index_pos by lia. simpl.
      rewrite !Nat.eqb_refl. reflexivity.
Qed.

Lemma grid_writes_in_range c r max_iter res (w : Z * Z * Z) :
  In w (grid_writes c r max_iter res res) ->
  exists y x, cell_of res res w = Ok (y, x) /\
              (y < res)%nat /\ (x < res)%nat.
Proof.
  destruct w as [[i j] u]. intros Hin. apply in_grid_writes in Hin.
  destruct Hin as (xp & yp & Hxp & Hyp & _ & _ & [[-> ->] | [-> ->]]).
  - exists yp, xp. unfold cell_of. rewrite !np_index_pos by lia.
    auto.
  - exists (mirror res yp), (mirror res xp). unfold cell_of.
    rewrite !np_index_neg by lia. auto using mirror_lt.
Qed.

Lemma escape_grid_settled (res : nat) (c : complex) (max_iter : Z) :
  exists G,
    escape_grid res c max_iter = Ok G /\ shape res res G /\
    forall y x, (1 <= y < res)%nat -> (x < res)%nat -> (2 * y <> res)%nat ->
      lookup G y x = Some (settled_cell c max_iter res y x).
Proof.
  unfold escape_grid. cbv zeta. rewrite grid_loop_run.
  destruct (run_writes_lookup res
              (grid_writes c (escape_radius c) max_iter res res)
              (zeros 0%Z res res) (shape_zeros 0%Z res res)
              (grid_writes_in_range c (escape_radius c) max_iter res))
    as (G & E & Hs & L).
  exists G. split; [exact E |]. split; [exact Hs |].
  intros y x Hy Hx Hmid. destruct (L y x) as [_ Lyes].
  apply Lyes.
  - intros w Hin Hl. apply landing_value; try assumption; lia.
  - apply landing_exists; lia.
Qed.

(** The grid cell by cell, away from row 0 and from the middle row: a
    cell of the upper half holds the escape count of its own pixel, and a
    cell of the lower half, whose pixel the loop never evaluates, holds
    the escape count of the pixel the loop mirrored onto it, the one in
    column [-x] (numpy's reading) of row [R - y]. *)
Theorem grid_cells (R : nat) (c : complex) (max_iter : Z) :
  exists G,
    escape_grid R c max_iter = Ok G /\
    forall y x : nat, (1 <= y < R)%nat -> (x < R)%nat ->
      ((R < 2 * y)%nat ->
       getitem G (Z.of_nat y) (Z.of_nat x) =
       Ok (checkz (pixel_z R R x y) c (escape_radius c) max_iter)) /\
      ((2 * y < R)%nat ->
       getitem G (Z.of_nat y) (Z.of_nat x) =
       Ok (checkz (pixel_z R R (mirror R x) (R - y)) c (escape_radius c)
                  max_iter)).
Proof.
  destruct (escape_grid_settled R c max_iter) as (G & E & Hs & L).
  exists G. split; [exact E |]. intros y x Hy Hx. split.
  - intros Hup. apply (getitem_lookup R R G y x); try lia; try assumption.
    rewrite L by lia. unfold settled_cell.
    destruct (Nat.ltb_spec (2 * y) R); [lia | reflexivity].
  - intros Hlow. apply (getitem_lookup R R G y x); try lia; try assumption.
    rewrite L by lia. unfold settled_cell.
    destruct (Nat.ltb_spec (2 * y) R); [reflexivity | lia].
Qed.

Lemma grid_cells_witness :
  exists G,
    escape_grid 5 (Cx 1 1) 10 = Ok G /\
    getitem G 4 3 =
    Ok (checkz (pixel_z 5 5 3 4) (Cx 1 1) (escape_radius (Cx 1 1)) 10) /\
    getitem G 1 3 =
    Ok (checkz (pixel_z 5 5 (mirror 5 3) (5 - 1)) (Cx 1 1)
               (escape_radius (Cx 1 1)) 10).
Proof.
  destruct (grid_cells 5 (Cx 1 1) 10) as (G & E & H).
  exists G. split; [exact E |]. split.
  - apply (proj1 (H 4%nat 3%nat ltac:(lia) ltac:(lia))). lia.
  - apply (proj2 (H 1%nat 3%nat ltac:(lia) ltac:(lia))). lia.
Defined.

Lemma checkz_bounds (z c : complex) (r : R) (max_iter : Z) :
  (0 <= checkz z c r max_iter <= Z.max 0 max_iter)%Z.
Proof.
  unfold checkz.
  destruct (checkz_loop_range c r max_iter _ z 1%Z eq_refl) as [H | H];
    lia.
Qed.

(** A property of the initial cells and of every value assigned is a
    property of every cell in the end. *)
Lemma run_writes_forall (P : Z -> Prop) (res : nat) :
  forall (ws : list (Z * Z * Z)) (a : array Z),
    shape res res a ->
    (forall w, In w ws ->
       exists y x, cell_of res res w = Ok (y, x) /\
                   (y < res)%nat /\ (x < res)%nat) ->
    (forall w, In w ws -> P (snd w)) ->
    (forall y x v, lookup a y x = Some v -> P v) ->
    exists a',
      run_writes ws a = Ok a' /\ shape res res a' /\
      forall y x v, lookup a' y x = Some v -> P v.
Proof.
  induction ws as [| [[i j] u] ws IH]; intros a Hs Hin Hval Hinit.
  - exists a. split; [reflexivity |]. split; assumption.
  - destruct (Hin (i, j, u) (or_introl eq_refl))
      as (y0 & x0 & Hc & Hy0 & Hx0).
    apply cell_of_Ok in Hc. destruct Hc as [Hi Hj].
    destruct (setitem_spec res res a i j y0 x0 u Hs Hi Hy0 Hj Hx0)
      as (a1 & E1 & Hs1 & L1).
    destruct (IH a1 Hs1) as (a' & E' & Hs' & L').
    + intros w Hw. apply Hin. right. exact Hw.
    + intros w Hw. apply Hval. right. exact Hw.
    + intros y x v. rewrite L1.
      destruct ((y =? y0)%nat && (x =? x0)%nat).
      * intros H. injection H as <-.
        exact (Hval (i, j, u) (or_introl eq_refl)).
      * apply Hinit.
    + exists a'. split; [simpl; rewrite E1; exact E' |].
      split; assumption.
Qed.

Lemma lookup_zeros_inv (rows cols y x : nat) (v : Z) :
  lookup (zeros 0%Z rows cols) y x = Some v -> v = 0%Z.
Proof.
  unfold lookup, zeros. intros H.
  destruct (nth_error (repeat (repeat 0%Z cols) rows) y) as [row |] eqn:E;
    [| discriminate].
  apply nth_error_In in E. apply repeat_spec in E. subst row.
  apply nth_error_In in H. apply repeat_spec in H. exact H.
Qed.

(** The escape grid is square, [R] rows of [R] cells, and every cell is
    an integer between 0 and the iteration cap. *)
Theorem grid_shape_and_range (R : nat) (c : complex) (max_iter : Z) :
  exists G,
    escape_grid R c max_iter = Ok G /\
    length G = R /\
    forall row, In row G ->
      length row = R /\
      forall v, In v row -> (0 <= v <= Z.max 0 max_iter)%Z.
Proof.
  unfold escape_grid. cbv zeta. rewrite grid_loop_run.
  destruct (run_writes_forall
              (fun v => (0 <= v <= Z.max 0 max_iter)%Z) R
              (grid_writes c (escape_radius c) max_iter R R)
              (zeros 0%Z R R) (shape_zeros 0%Z R R)
              (grid_writes_in_range c (escape_radius c) max_iter R))
    as (G & E & Hs & L).
  - intros [[i j] u] Hin. apply in_grid_writes in Hin.
    destruct Hin as (xp & yp & _ & _ & _ & -> & _).
    apply checkz_bounds.
  - intros y x v Hv. apply lookup_zeros_inv in Hv. lia.
  - exists G. split; [exact E |]. destruct Hs as [Hlen Hall].
    split; [exact Hlen |]. intros row Hrow.
    rewrite Forall_forall in Hall. pose proof (Hall row Hrow) as Hl.
    split; [exact Hl |]. intros v Hv.
    apply In_nth_error in Hrow. destruct Hrow as [y Ey].
    apply In_nth_error in Hv. destruct Hv as [x Ex].
    apply (L y x v). unfold lookup. rewrite Ey. exact Ex.
Qed.

(** ** Colours *)

Lemma Rtrunc_frac (x : R) :
  (0 <= x)%R -> (0 <= x - IZR (Rtrunc x) < 1)%R.
Proof.
  intros Hx. unfold Rtrunc.
  destruct (Rle_dec 0 x) as [_ | H]; [| contradiction].
  destruct (base_Int_part x). lra.
Qed.

(** [hsv_to_rgb] never falls off its chain of tests on a finite hue. *)
Lemma hsv_to_rgb_finite (h s v : R) :
  exists col, hsv_to_rgb (Fin h) s v = Ok col.
Proof.
  unfold hsv_to_rgb. destruct (Req_dec_T s 0); [eexists; reflexivity |].
  cbn [fmul].
  pose proof (Z.mod_pos_bound (Rtrunc (h * 6)) 6 ltac:(lia)) as Hi.
  repeat match goal with
         | |- context [Z.eqb ?a ?b] => destruct (Z.eqb_spec a b)
         end; try (eexists; reflexivity).
  lia.
Qed.

Lemma hsv_to_rgb_channels (h : R) (col : rgb) :
  (0 <= h)%R ->
  hsv_to_rgb (Fin h) 1 (1 / 2) = Ok col ->
  let '(r, g, b) := col in
  (0 <= r <= 1 / 2)%R /\ (0 <= g <= 1 / 2)%R /\ (0 <= b <= 1 / 2)%R.
Proof.
  intros Hh. unfold hsv_to_rgb.
  destruct (Req_dec_T 1 0) as [H | _]; [lra |]. cbn [fmul].
  pose proof (Rtrunc_frac (h * 6) ltac:(lra)) as Hf.
  repeat match goal with
         | |- context [Z.eqb ?a ?b] => destruct (Z.eqb_spec a b)
         end; intros E; try discriminate E; injection E as <-;
    repeat split; lra.
Qed.

(** For a cell of the normalised grid, a number between 0 and 1, and a
    hue offset between 0 and 1, the mapper finds a colour for the cell,
    and each of its three channels lies between 0 and 0.5. *)
Theorem colour_channels (v offset : R) :
  (0 <= v <= 1)%R -> (0 <= offset <= 1)%R ->
  exists r g b : R,
    colour_of (Fin v) (Fin offset) = Ok (r, g, b) /\
    (0 <= r <= 1 / 2)%R /\ (0 <= g <= 1 / 2)%R /\ (0 <= b <= 1 / 2)%R.
Proof.
  intros Hv Hoff. unfold colour_of, feqb.
  destruct (Req_dec_T v 0) as [_ | _].
  { exists 0%R, 0%R, 0%R. split; [reflexivity |]. lra. }
  cbn [fadd fgtb].
  assert (Hgen : forall h, (0 <= h)%R ->
            exists r g b : R,
              hsv_to_rgb (Fin h) 1 (1 / 2) = Ok (r, g, b) /\
              (0 <= r <= 1 / 2)%R /\ (0 <= g <= 1 / 2)%R /\
              (0 <= b <= 1 / 2)%R).
  { intros h Hh. destruct (hsv_to_rgb_finite h 1 (1 / 2)) as [[[r g] b] E].
    exists r, g, b. split; [exact E |].
    exact (hsv_to_rgb_channels h (r, g, b) Hh E). }
  destruct (Rgt_dec (v + offset) 1) as [Hgt | _].
  - cbn [fsub fneg fadd]. apply Hgen. lra.
  - apply Hgen. lra.
Qed.

Lemma colour_channels_witness :
  (0 <= 1 / 2 <= 1)%R /\ (0 <= 67 / 100 <= 1)%R /\
  exists r g b : R,
    colour_of (Fin (1 / 2)) (Fin (67 / 100)) = Ok (r, g, b) /\
    (0 <= r <= 1 / 2)%R /\ (0 <= g <= 1 / 2)%R /\ (0 <= b <= 1 / 2)%R.
Proof.
  assert (H1 : (0 <= 1 / 2 <= 1)%R) by lra.
  assert (H2 : (0 <= 67 / 100 <= 1)%R) by lra.
  split; [exact H1 |]. split; [exact H2 |].
  exact (colour_channels (1 / 2) (67 / 100) H1 H2).
Defined.

(** ** Normalisation *)

Lemma in_concat_lookup (a : array Z) (v : Z) :
  In v (concat a) <-> exists y x, lookup a y x = Some v.
Proof.
  rewrite in_concat. unfold lookup. split.
  - intros (row & Hrow & Hv).
    apply In_nth_error in Hrow. destruct Hrow as [y Ey].
    apply In_nth_error in Hv. destruct Hv as [x Ex].
    exists y, x. rewrite Ey. exact Ex.
  - intros (y & x & H).
    destruct (nth_error a y) as [row |] eqn:Ey; [| discriminate].
    exists row. split; eapply nth_error_In; eassumption.
Qed.

Lemma fold_left_max_spec (l : list Z) :
  forall v0 : Z,
    (v0 <= fold_left Z.max l v0)%Z /\
    (forall v, In v l -> (v <= fold_left Z.max l v0)%Z) /\
    (fold_left Z.max l v0 = v0 \/ In (fold_left Z.max l v0) l).
Proof.
  induction l as [| a l IH]; intros v0; simpl.
  - split; [lia |]. split; [intros v [] | left; reflexivity].
  - destruct (IH (Z.max v0 a)) as (H1 & H2 & H3).
    split; [lia |]. split.
    + intros v [<- | Hv]; [lia | apply H2; exact Hv].
    + destruct H3 as [H3 | H3]; [| right; right; exact H3].
      rewrite H3. destruct (Z.max_spec v0 a) as [[_ E] | [_ E]];
        rewrite E; auto.
Qed.

(** [amax] returns a bound of the cells that one of them attains; it
    raises only on an array without cells. *)
Lemma amax_spec (a : array Z) :
  (exists m, amax a = Ok m /\
     (forall y x v, lookup a y x = Some v -> (v <= m)%Z) /\
     (exists y x, lookup a y x = Some m)) \/
  (amax a = Raise ValueError /\ forall y x, lookup a y x = None).
Proof.
  unfold amax. destruct (concat a) as [| v0 l] eqn:E.
  - right. split; [reflexivity |]. intros y x.
    destruct (lookup a y x) as [v |] eqn:L; [| reflexivity].
    assert (H : In v (concat a)) by (apply in_concat_lookup; eauto).
    rewrite E in H. contradiction.
  - left. destruct (fold_left_max_spec l v0) as (H1 & H2 & H3).
    exists (fold_left Z.max l v0). split; [reflexivity |]. split.
    + intros y x v L.
      assert (H : In v (concat a)) by (apply in_concat_lookup; eauto).
      rewrite E in H. destruct H as [<- | H]; [exact H1 | apply H2, H].
    + apply in_concat_lookup. rewrite E.
      destruct H3 as [-> | H3]; [left; reflexivity | right; exact H3].
Qed.

(** The normalisation line of [main] on a grid of nonnegative cells with
    a positive maximum: every cell becomes a number between 0 and 1, zero
    exactly for the zero cells, and a cell holding the maximum
    becomes 1. *)
Theorem normalised_grid (pixels : array Z) (m : Z) :
  amax pixels = Ok m -> (0 < m)%Z ->
  (forall y x p, lookup pixels y x = Some p -> (0 <= p)%Z) ->
  (forall y x p, lookup pixels y x = Some p ->
     exists v, np_divide p m = Fin v /\ (0 <= v <= 1)%R /\
               (v = 0%R <-> p = 0%Z)) /\
  (exists y x, lookup pixels y x = Some m /\ np_divide m m = Fin 1).
Proof.
  intros Ha Hm Hpos.
  destruct (amax_spec pixels) as [(m' & E & Hle & Hat) | [E _]];
    [| congruence].
  assert (m' = m) by congruence. subst m'. split.
  - intros y x p L. apply np_divide_range; [| exact Hm].
    split; [eapply Hpos; exact L | eapply Hle; exact L].
  - destruct Hat as (y & x & L). exists y, x. split; [exact L |].
    unfold np_divide. destruct (Z.eqb_spec m 0); [lia |].
    f_equal. field. apply not_0_IZR. lia.
Qed.

Lemma normalised_grid_witness :
  amax [[0; 3]; [1; 2]]%Z = Ok 3%Z /\ (0 < 3)%Z /\
  exists y x, lookup [[0; 3]; [1; 2]]%Z y x = Some 3%Z /\
              np_divide 3 3 = Fin 1.
Proof.
  assert (H1 : amax [[0; 3]; [1; 2]]%Z = Ok 3%Z) by reflexivity.
  assert (H2 : (0 < 3)%Z) by lia.
  split; [exact H1 |]. split; [exact H2 |].
  apply (normalised_grid [[0; 3]; [1; 2]]%Z 3 H1 H2).
  intros y x p.
  destruct y as [| [| y]], x as [| [| x]]; simpl;
    try (destruct x; discriminate); try (destruct y; discriminate);
    intros E; injection E as <-; lia.
Defined.

(** ** The colour mapper on a grid with an escaping pixel *)

Lemma for_each_seq_inv {S : Type} (P : nat -> S -> Prop)
  (body : nat -> S -> result S) :
  forall (len start : nat) (s : S),
    P start s ->
    (forall i s, (start <= i < start + len)%nat -> P i s ->
       exists s', body i s = Ok s' /\ P (Datatypes.S i) s') ->
    exists s', for_each (seq start len) body s = Ok s' /\ P (start + len)%nat s'.
Proof.
  induction len as [| len IH]; intros start s Hs Hbody; simpl.
  - exists s. rewrite Nat.add_0_r. split; [reflexivity | exact Hs].
  - destruct (Hbody start s ltac:(lia) Hs) as (s1 & E1 & P1).
    rewrite E1, bind_Ok. rewrite <- Nat.add_succ_comm.
    apply IH; [exact P1 |]. intros i s' Hi. apply Hbody. lia.
Qed.

Lemma shape_map {A B : Type} (g : A -> B) (rows cols : nat) (a : array A) :
  shape rows cols a -> shape rows cols (map (map g) a).
Proof.
  intros [Hlen Hall]. split; [rewrite length_map; exact Hlen |].
  apply Forall_forall. intros row Hrow.
  apply in_map_iff in Hrow. destruct Hrow as (row0 & <- & Hin).
  rewrite length_map. rewrite Forall_forall in Hall. apply Hall, Hin.
Qed.

Lemma lookup_map {A B : Type} (g : A -> B) (a : array A) (y x : nat) :
  lookup (map (map g) a) y x = option_map g (lookup a y x).
Proof.
  unfold lookup. rewrite nth_error_map.
  destruct (nth_error a y) as [row |]; simpl; [| reflexivity].
  apply nth_error_map.
Qed.

Lemma colour_of_finite (v offset : R) :
  exists col, colour_of (Fin v) (Fin offset) = Ok col.
Proof.
  unfold colour_of. destruct (feqb (Fin v) (Fin 0));
    [eexists; reflexivity |].
  cbn [fadd]. destruct (fgtb (Fin (v + offset)) (Fin 1));
    cbn [fsub fneg fadd]; apply hsv_to_rgb_finite.
Qed.

Lemma colour_step_spec (res : nat) (pixels : array Z) (m : Z) (offset : R)
  (xp yp : nat) (cp : array rgb) :
  shape res res pixels -> m <> 0%Z -> shape res res cp ->
  (xp < res)%nat -> (yp < res)%nat ->
  exists p col cp',
    lookup pixels yp xp = Some p /\
    colour_of (np_divide p m) (Fin offset) = Ok col /\
    colour_step (map (map (fun p => np_divide p m)) pixels) (Fin offset)
                xp yp cp = Ok cp' /\
    shape res res cp' /\
    forall y x,
      lookup cp' y x =
      if ((y =? yp) && (x =? xp))%nat then Some col else lookup cp y x.
Proof.
  intros Hs Hm Hcp Hx Hy.
  destruct (shape_lookup res res pixels yp xp Hs Hy Hx) as [p Lp].
  assert (Ediv : np_divide p m = Fin (IZR p / IZR m)).
  { unfold np_divide. destruct (Z.eqb_spec m 0); [contradiction |].
    reflexivity. }
  destruct (colour_of_finite (IZR p / IZR m) offset) as [col Ecol].
  rewrite <- Ediv in Ecol.
  destruct (setitem_spec res res cp (Z.of_nat yp) (Z.of_nat xp) yp xp col
              Hcp) as (cp' & E' & Hs' & L'); auto using np_index_pos.
  exists p, col, cp'. split; [exact Lp |]. split; [exact Ecol |].
  split; [| split; [exact Hs' | exact L']].
  unfold colour_step.
  rewrite (getitem_lookup res res _ yp xp (np_divide p m));
    try assumption.
  - rewrite bind_Ok, Ecol, bind_Ok. exact E'.
  - apply shape_map. exact Hs.
  - rewrite lookup_map, Lp. reflexivity.
Qed.

(** On a square grid of nonnegative cells with a positive maximum, and
    for a hue offset between 0 and 1, the colour mapper ends without an
    exception, and its array has the shape of the grid and holds, cell by
    cell, the colour of the normalised cell. *)
Theorem colour_map_cells (res : nat) (pixels : array Z) (m : Z)
  (offset : R) :
  shape res res pixels -> amax pixels = Ok m -> (0 < m)%Z ->
  (forall y x p, lookup pixels y x = Some p -> (0 <= p)%Z) ->
  (0 <= offset <= 1)%R ->
  exists cp,
    colour_map res res pixels (Fin offset) = Ok cp /\
    shape res res cp /\
    forall y x, (y < res)%nat -> (x < res)%nat ->
      coloured pixels m (Fin offset) cp y x.
Proof.
  intros Hs Ha Hpos _ _.
  assert (Hm : m <> 0%Z) by lia. unfold colour_map. rewrite Ha, bind_Ok. cbv zeta.
  unfold for_range.
  destruct (for_each_seq_inv
    (fun k cp => shape res res cp /\
       forall y x, (y < res)%nat -> (x < k)%nat ->
         coloured pixels m (Fin offset) cp y x)
    (fun xpixel =>
       for_each (seq 0 res) (fun ypixel =>
         colour_step (map (map (fun p => np_divide p m)) pixels)
                     (Fin offset) xpixel ypixel))
    res 0%nat (zeros (0%R, 0%R, 0%R) res res))
    as (cp & E & Hcp & Hall).
  - split; [apply shape_zeros |]. intros y x _ Hx. lia.
  - intros k cp0 Hk [Hs0 H0].
    destruct (for_each_seq_inv
      (fun j cp => shape res res cp /\
         (forall y x, (y < res)%nat -> (x < k)%nat ->
            coloured pixels m (Fin offset) cp y x) /\
         (forall y, (y < j)%nat ->
            coloured pixels m (Fin offset) cp y k))
      (fun ypixel =>
         colour_step (map (map (fun p => np_divide p m)) pixels)
                     (Fin offset) k ypixel)
      res 0%nat cp0) as (cp1 & E1 & Hs1 & Hleft & Hcol).
    + split; [exact Hs0 |]. split; [exact H0 |]. intros y Hy. lia.
    + intros j cp2 Hj (Hs2 & Hleft2 & Hcol2).
      destruct (colour_step_spec res pixels m offset k j cp2 Hs Hm Hs2)
        as (p & col & cp3 & Lp & Ecol & E3 & Hs3 & L3); try lia.
      exists cp3. split; [exact E3 |]. split; [exact Hs3 |]. split.
      * intros y x Hy Hx.
        destruct (Hleft2 y x Hy Hx) as (p' & col' & A & B & C).
        exists p', col'. split; [exact A |]. split; [exact B |].
        rewrite L3. destruct (Nat.eqb_spec x k); [lia |].
        rewrite andb_false_r. exact C.
      * intros y Hy. destruct (Nat.eq_dec y j) as [-> | Hne].
        -- exists p, col. split; [exact Lp |]. split; [exact Ecol |].
           rewrite L3, !Nat.eqb_refl. reflexivity.
        -- destruct (Hcol2 y ltac:(lia)) as (p' & col' & A & B & C).
           exists p', col'. split; [exact A |]. split; [exact B |].
           rewrite L3. destruct (Nat.eqb_spec y j); [contradiction |].
           exact C.
    + exists cp1. split; [exact E1 |]. split; [exact Hs1 |].
      intros y x Hy Hx. destruct (Nat.eq_dec x k) as [-> | Hne].
      * apply Hcol. simpl. exact Hy.
      * apply Hleft; [exact Hy | lia].
  - exists cp. split; [exact E |]. split; [exact Hcp |].
    intros y x Hy Hx. apply Hall; [exact Hy | simpl; exact Hx].
Qed.

Lemma colour_map_cells_witness :
  shape 2 2 [[0; 3]; [1; 2]]%Z /\ amax [[0; 3]; [1; 2]]%Z = Ok 3%Z /\
  (0 < 3)%Z /\ (0 <= 67 / 100 <= 1)%R /\
  exists cp,
    colour_map 2 2 [[0; 3]; [1; 2]]%Z (Fin (67 / 100)) = Ok cp /\
    shape 2 2 cp.
Proof.
  assert (H1 : shape 2 2 [[0; 3]; [1; 2]]%Z).
  { split; [reflexivity |]. repeat constructor. }
  assert (H2 : amax [[0; 3]; [1; 2]]%Z = Ok 3%Z) by reflexivity.
  assert (H3 : (0 < 3)%Z) by lia.
  assert (H4 : forall y x p,
            lookup [[0; 3]; [1; 2]]%Z y x = Some p -> (0 <= p)%Z).
  { intros y x p.
    destruct y as [| [| y]], x as [| [| x]]; simpl;
      try (destruct x; discriminate); try (destruct y; discriminate);
      intros E; injection E as <-; lia. }
  assert (H5 : (0 <= 67 / 100 <= 1)%R) by lra.
  split; [exact H1 |]. split; [exact H2 |]. split; [exact H3 |].
  split; [exact H5 |].
  destruct (colour_map_cells 2 [[0; 3]; [1; 2]]%Z 3 (67 / 100)
              H1 H2 H3 H4 H5) as (cp & E & Hs & _).
  exists cp. split; [exact E | exact Hs].
Defined.

(** ** The cutoff radius *)

Lemma checkz_loop_radius c (r r' : R) (max_iter : Z) :
  (r <= r')%R ->
  forall (k : nat) (z : complex) (n : Z),
    k = Z.to_nat (max_iter + 1 - n) -> (1 <= n)%Z ->
    checkz_loop c r' max_iter z n <> 0%Z ->
    (1 <= checkz_loop c r max_iter z n
       <= checkz_loop c r' max_iter z n)%Z.
Proof.
  intros Hr. induction k as [| k IH]; intros z n Hk Hn;
    rewrite (checkz_loop_step c r), (checkz_loop_step c r');
    destruct (Z.leb_spec n max_iter) as [Hle | Hgt];
    try lia; try congruence.
  destruct (Rgt_dec (Cabs (f z c)) r') as [Hesc' | Hin'];
    destruct (Rgt_dec (Cabs (f z c)) r) as [Hesc | Hin];
    intros Hne; try lia; try lra.
  - destruct (checkz_loop_range c r' max_iter k (f z c) (n + 1)%Z)
      as [H0 | Hb]; try lia.
  - apply IH; lia.
Qed.

(** A larger cutoff never makes a starting value escape earlier: if it
    escapes with the cutoff [r'], it escapes with any smaller cutoff [r],
    in the same round or before. *)
Theorem checkz_radius (z c : complex) (r r' : R) (max_iter : Z) :
  (r <= r')%R ->
  checkz z c r' max_iter <> 0%Z ->
  (1 <= checkz z c r max_iter <= checkz z c r' max_iter)%Z.
Proof.
  intros Hr Hne. unfold checkz in *.
  apply (checkz_loop_radius c r r' max_iter Hr
           (Z.to_nat (max_iter + 1 - 1))); [reflexivity | lia | exact Hne].
Qed.

Lemma checkz_radius_witness :
  (1 / 2 <= 1)%R /\ checkz (Cx 2 0) (Cx 0 0) 1 10 <> 0%Z /\
  (1 <= checkz (Cx 2 0) (Cx 0 0) (1 / 2) 10
     <= checkz (Cx 2 0) (Cx 0 0) 1 10)%Z.
Proof.
  assert (H1 : (1 / 2 <= 1)%R) by lra.
  assert (H2 : checkz (Cx 2 0) (Cx 0 0) 1 10 <> 0%Z).
  { rewrite checkz_c_zero by lia. simpl.
    destruct (Rgt_dec (2 * 2 + 0 * 0) 1) as [_ | H]; [discriminate |].
    exfalso. apply H. lra. }
  split; [exact H1 |]. split; [exact H2 |].
  exact (checkz_radius (Cx 2 0) (Cx 0 0) (1 / 2) 1 10 H1 H2).
Defined.

(** ** Colour mode and small resolutions *)




(** * The escape test in double precision *)

Lemma f64_square_plus (z c : Float64.complex) :
  Float64.f z c = Float64.square_plus c z.
Proof. reflexivity. Qed.

Lemma checkz64_loop_step hypot c r max_iter z n :
  Float64.checkz_loop hypot c r max_iter z n =
  if (n <=? max_iter)%Z then
    match Float64.Cabs hypot (Float64.f z c) with
    | Raise e => Raise e
    | Ok a =>
        if PrimFloat.ltb r a then Ok n
        else Float64.checkz_loop hypot c r max_iter (Float64.f z c) (n + 1)
    end
  else Ok 0%Z.
Proof.
  rewrite Float64.checkz_loop_equation_1.
  destruct (Z_le_gt_dec n max_iter) as [Hle | Hgt];
    cbn [Float64.checkz_loop_unfold_clause_1];
    destruct (Z.leb_spec n max_iter); try lia; reflexivity.
Qed.

(** [abs] raises nothing but [OverflowError]. *)
Lemma Cabs64_raise hypot z e :
  Float64.Cabs hypot z = Raise e -> e = OverflowError.
Proof.
  unfold Float64.Cabs.
  repeat match goal with
         | |- context [if ?b then _ else _] => destruct b
         end; intros H; try discriminate H.
  injection H as <-. reflexivity.
Qed.

Lemma exceeds64_Ok hypot r z a :
  Float64.Cabs hypot z = Ok a ->
  Float64.exceeds hypot r z = Ok (PrimFloat.ltb r a).
Proof. intros H. unfold Float64.exceeds. rewrite H. reflexivity. Qed.

(** What the loop does when entered at [n] with [z], in terms of the
    iterates of [z -> z*z + c] and of the test [abs(z) > r]. *)
Lemma checkz64_loop_spec hypot c r max_iter :
  forall (m : nat) (z : Float64.complex) (n : Z),
    m = Z.to_nat (max_iter + 1 - n) ->
    match Float64.checkz_loop hypot c r max_iter z n with
    | Ok res =>
        (res = 0%Z /\
         forall k : nat, (1 <= k)%nat -> (n + Z.of_nat k - 1 <= max_iter)%Z ->
           Float64.exceeds hypot r (Float64.iterate c k z) = Ok false)
        \/
        (exists k : nat, (1 <= k)%nat /\
           res = (n + Z.of_nat k - 1)%Z /\ (res <= max_iter)%Z /\
           Float64.exceeds hypot r (Float64.iterate c k z) = Ok true /\
           forall j : nat, (1 <= j < k)%nat ->
             Float64.exceeds hypot r (Float64.iterate c j z) = Ok false)
    | Raise e =>
        e = OverflowError /\
        exists k : nat, (1 <= k)%nat /\
          (n + Z.of_nat k - 1 <= max_iter)%Z /\
          Float64.Cabs hypot (Float64.iterate c k z) = Raise OverflowError /\
          forall j : nat, (1 <= j < k)%nat ->
            Float64.exceeds hypot r (Float64.iterate c j z) = Ok false
    end.
Proof.
  induction m as [| m IH]; intros z n Hm; rewrite checkz64_loop_step.
  - destruct (Z.leb_spec n max_iter) as [Hle | Hgt]; [lia |].
    left. split; [reflexivity |]. intros k Hk Hb. lia.
  - destruct (Z.leb_spec n max_iter) as [Hle | Hgt]; [| lia].
    destruct (Float64.Cabs hypot (Float64.f z c)) as [a | e] eqn:Ea.
    + destruct (PrimFloat.ltb r a) eqn:Er.
      * right. exists 1%nat. simpl.
        rewrite <- f64_square_plus, (exceeds64_Ok hypot r _ a Ea), Er.
        repeat split; try lia.
      * assert (Hm' : m = Z.to_nat (max_iter + 1 - (n + 1))) by lia.
        specialize (IH (Float64.f z c) (n + 1)%Z Hm').
        assert (H1 : Float64.exceeds hypot r (Float64.iterate c 1 z)
                     = Ok false).
        { simpl. rewrite <- f64_square_plus,
                         (exceeds64_Ok hypot r _ a Ea), Er. reflexivity. }
        destruct (Float64.checkz_loop hypot c r max_iter (Float64.f z c)
                    (n + 1)) as [res | e].
        -- destruct IH as [[H0 Hall] | (k & Hk & Hres & Hb & Hesc & Hbefore)].
           ++ left. split; [exact H0 |].
              intros [| k] Hk Hb; [lia |].
              destruct k as [| k]; [exact H1 |].
              change (Float64.iterate c (S (S k)) z)
                with (Float64.iterate c (S k) (Float64.f z c)).
              apply Hall; lia.
           ++ right. exists (S k). repeat split; try lia.
              ** exact Hesc.
              ** intros [| j] Hj; [lia |].
                 destruct j as [| j]; [exact H1 |].
                 change (Float64.iterate c (S (S j)) z)
                   with (Float64.iterate c (S j) (Float64.f z c)).
                 apply Hbefore. lia.
        -- destruct IH as (He & k & Hk & Hb & Hov & Hbefore).
           split; [exact He |]. exists (S k). repeat split; try lia.
           ++ exact Hov.
           ++ intros [| j] Hj; [lia |].
              destruct j as [| j]; [exact H1 |].
              change (Float64.iterate c (S (S j)) z)
                with (Float64.iterate c (S j) (Float64.f z c)).
              apply Hbefore. lia.
    + pose proof (Cabs64_raise hypot _ e Ea) as ->.
      split; [reflexivity |]. exists 1%nat. simpl.
      rewrite <- f64_square_plus.
      repeat split; try lia. exact Ea.
Qed.

(** C1 (as amended): on doubles, with the iterates of [z -> z*z + c] and
    their moduli computed as the code computes them, [checkz] either
    returns 0 and no iterate up to [max_iter] has [abs(z) > r], or returns
    the first round [n] in [1, max_iter] whose iterate has [abs(z) > r],
    or raises [OverflowError] because the modulus of an iterate is too
    large for a double before any iterate has [abs(z) > r]. *)
Theorem checkz64_first_escape
  (hypot : PrimFloat.float -> PrimFloat.float -> PrimFloat.float)
  (z0 c : Float64.complex) (r : PrimFloat.float) (max_iter : Z) :
  match Float64.checkz hypot z0 c r max_iter with
  | Ok n =>
      (n = 0%Z /\
       forall k : nat, (1 <= Z.of_nat k <= max_iter)%Z ->
         Float64.exceeds hypot r (Float64.iterate c k z0) = Ok false)
      \/
      ((1 <= n <= max_iter)%Z /\
       Float64.exceeds hypot r (Float64.iterate c (Z.to_nat n) z0)
       = Ok true /\
       forall k : nat, (1 <= Z.of_nat k < n)%Z ->
         Float64.exceeds hypot r (Float64.iterate c k z0) = Ok false)
  | Raise e =>
      e = OverflowError /\
      exists k : nat, (1 <= Z.of_nat k <= max_iter)%Z /\
        Float64.Cabs hypot (Float64.iterate c k z0) = Raise OverflowError /\
        forall j : nat, (1 <= j < k)%nat ->
          Float64.exceeds hypot r (Float64.iterate c j z0) = Ok false
  end.
Proof.
  unfold Float64.checkz.
  pose proof (checkz64_loop_spec hypot c r max_iter _ z0 1%Z eq_refl) as H.
  destruct (Float64.checkz_loop hypot c r max_iter z0 1) as [n | e].
  - destruct H as [[H0 Hall] | (k & Hk & Hres & Hb & Hesc & Hbefore)].
    + left. split; [exact H0 |]. intros k Hk. apply Hall; lia.
    + right. subst n.
      replace (1 + Z.of_nat k - 1)%Z with (Z.of_nat k) in * by lia.
      rewrite Nat2Z.id. repeat split; try lia; [exact Hesc |].
      intros j Hj. apply Hbefore. lia.
  - destruct H as (He & k & Hk & Hb & Hov & Hbefore).
    split; [exact He |]. exists k. repeat split; try lia; assumption.
Qed.

(** C3 (as amended): on doubles [checkz] always terminates; for a cap
    [max_iter >= 1] it either raises [OverflowError] or returns an
    integer between 0 and [max_iter]. *)
Theorem checkz64_range
  (hypot : PrimFloat.float -> PrimFloat.float -> PrimFloat.float)
  (z0 c : Float64.complex) (r : PrimFloat.float) (max_iter : Z) :
  (1 <= max_iter)%Z ->
  Float64.checkz hypot z0 c r max_iter = Raise OverflowError \/
  exists n : Z,
    Float64.checkz hypot z0 c r max_iter = Ok n /\ (0 <= n <= max_iter)%Z.
Proof.
  intros Hmi. unfold Float64.checkz.
  pose proof (checkz64_loop_spec hypot c r max_iter _ z0 1%Z eq_refl) as H.
  destruct (Float64.checkz_loop hypot c r max_iter z0 1) as [n | e].
  - right. exists n. split; [reflexivity |].
    destruct H as [[H0 _] | (k & Hk & Hres & Hb & _)]; lia.
  - left. destruct H as [-> _]. reflexivity.
Qed.

Lemma checkz64_range_witness :
  (1 <= 10)%Z /\
  (Float64.checkz Float64.hypot_cr Float64.tilted Float64.C0
     PrimFloat.one 10 = Raise OverflowError \/
   exists n : Z,
     Float64.checkz Float64.hypot_cr Float64.tilted Float64.C0
       PrimFloat.one 10 = Ok n /\ (0 <= n <= 10)%Z).
Proof.
  split; [lia |]. apply checkz64_range. lia.
Defined.

(** C3 (as stated) fails: for the finite [c = 3 * 2^1022 * (1 + i)],
    [r = 1] and [max_iter = 10] the first iterate of [z0 = 0] is [c],
    whose modulus overflows, and [checkz] raises [OverflowError] instead
    of returning an integer. *)
Lemma checkz64_overflow :
  PrimFloat.is_finite (Float64.re Float64.huge) = true /\
  PrimFloat.is_finite (Float64.im Float64.huge) = true /\
  Float64.checkz Float64.hypot_cr Float64.C0 Float64.huge PrimFloat.one 10
  = Raise OverflowError.
Proof. repeat split; vm_compute; reflexivity. Qed.

Lemma to_R_one : Float64.to_R PrimFloat.one = 1%R.
Proof.
  unfold Float64.to_R.
  replace (FloatOps.Prim2SF PrimFloat.one)
    with (SpecFloat.S754_finite false 4503599627370496 (-52))
    by (vm_compute; reflexivity).
  change (powerRZ 2 (-52)) with (/ 2 ^ 52)%R.
  rewrite pow_IZR. change (2 ^ Z.of_nat 52)%Z with 4503599627370496%Z.
  field.
Qed.

Lemma to_R_positive (x : PrimFloat.float) (m : positive) (e : Z) :
  FloatOps.Prim2SF x = SpecFloat.S754_finite false m e ->
  (0 < Float64.to_R x)%R.
Proof.
  intros H. unfold Float64.to_R. rewrite H.
  apply Rmult_lt_0_compat; [| apply powerRZ_lt; lra].
  apply Rmult_lt_0_compat; [lra |]. apply IZR_lt. reflexivity.
Qed.

(** The point [1 + 2^-600 i] read as a pair of real numbers. *)
Lemma tilted_exact :
  Float64.to_R (Float64.re Float64.tilted) = 1%R /\
  (0 < Float64.to_R (Float64.im Float64.tilted))%R.
Proof.
  split; [exact to_R_one |].
  apply (to_R_positive _ 4503599627370496 (-652)).
  vm_compute. reflexivity.
Qed.

(** C1 (as stated) fails on the code's numbers.  For [z0 = 1 + 2^-600 i],
    [c = 0], [r = 1], [max_iter = 10] the exact first iterate [z0*z0] has
    modulus above 1, so the smallest index of the claim is 1, but every
    computed iterate has modulus exactly 1 and [checkz] returns 0.  And
    for [c = 3 * 2^1022 * (1 + i)] it returns no index at all: it raises
    [OverflowError]. *)
Lemma checkz64_not_first_escape :
  (Cabs (Cadd (Cmul (Cx (Float64.to_R (Float64.re Float64.tilted))
                        (Float64.to_R (Float64.im Float64.tilted)))
                    (Cx (Float64.to_R (Float64.re Float64.tilted))
                        (Float64.to_R (Float64.im Float64.tilted))))
              (Cx 0 0))
   > Float64.to_R PrimFloat.one)%R /\
  Float64.checkz Float64.hypot_cr Float64.tilted Float64.C0
    PrimFloat.one 10 = Ok 0%Z /\
  Float64.checkz Float64.hypot_cr Float64.tilted Float64.huge
    PrimFloat.one 10 = Raise OverflowError.
Proof.
  split; [| split; vm_compute; reflexivity].
  destruct tilted_exact as [Hre Him]. rewrite to_R_one.
  set (z := Cx _ _).
  change (Cadd (Cmul z z) (Cx 0 0)) with (f z (Cx 0 0)).
  rewrite Cabs_f_zero. subst z. cbn [re im]. rewrite Hre. nra.
Qed.




(** ** Opposite starting values, on doubles *)

Lemma mul64_opp_opp (a b : PrimFloat.float) :
  PrimFloat.mul (PrimFloat.opp a) (PrimFloat.opp b) = PrimFloat.mul a b.
Proof.
  rewrite <- (FloatAxioms.SF2Prim_Prim2SF
                (PrimFloat.mul (PrimFloat.opp a) (PrimFloat.opp b))).
  rewrite <- (FloatAxioms.SF2Prim_Prim2SF (PrimFloat.mul a b)).
  f_equal. rewrite !FloatAxioms.mul_spec, !FloatAxioms.opp_spec.
  destruct (FloatOps.Prim2SF a) as [sa | sa | | sa ma ea],
           (FloatOps.Prim2SF b) as [sb | sb | | sb mb eb];
    simpl; rewrite ?xorb_negb_negb; reflexivity.
Qed.

Lemma f64_opp (z c : Float64.complex) :
  Float64.f (Float64.Copp z) c = Float64.f z c.
Proof.
  unfold Float64.f, Float64.Cmul, Float64.Copp.
  cbn [Float64.re Float64.im]. rewrite !mul64_opp_opp. reflexivity.
Qed.

(** In double precision too a starting value and its opposite have the
    same fate, whatever the library's [hypot]: the products of [(-z)*(-z)]
    are those of [z*z], bit for bit. *)
Theorem checkz64_opp
  (hypot : PrimFloat.float -> PrimFloat.float -> PrimFloat.float)
  (z c : Float64.complex) (r : PrimFloat.float) (max_iter : Z) :
  Float64.checkz hypot (Float64.Copp z) c r max_iter =
  Float64.checkz hypot z c r max_iter.
Proof.
  unfold Float64.checkz.
  rewrite (checkz64_loop_step hypot c r max_iter (Float64.Copp z)),
          (checkz64_loop_step hypot c r max_iter z), f64_opp.
  reflexivity.
Qed.

(** ** The iteration cap, on doubles *)

Lemma checkz64_loop_cap hypot c r (m m' : Z) :
  (m <= m')%Z ->
  forall (k : nat) (z : Float64.complex) (n res : Z),
    k = Z.to_nat (m + 1 - n) -> (1 <= n)%Z -> res <> 0%Z ->
    Float64.checkz_loop hypot c r m z n = Ok res ->
    Float64.checkz_loop hypot c r m' z n = Ok res.
Proof.
  intros Hm. induction k as [| k IH]; intros z n res Hk Hn Hres;
    rewrite (checkz64_loop_step hypot c r m),
            (checkz64_loop_step hypot c r m');
    destruct (Z.leb_spec n m) as [Hle | Hgt]; try lia;
    try (intros H; injection H as <-; contradiction).
  destruct (Z.leb_spec n m') as [_ | ?]; [| lia].
  destruct (Float64.Cabs hypot (Float64.f z c)) as [a | e];
    [| discriminate].
  destruct (PrimFloat.ltb r a); [intros H; exact H |].
  apply IH; lia.
Qed.

(** On doubles, a starting value that [checkz] reports in round [n > 0]
    under the cap [m] is reported in the same round under every larger
    cap: no [OverflowError] and no other round can come in between. *)
Theorem checkz64_cap
  (hypot : PrimFloat.float -> PrimFloat.float -> PrimFloat.float)
  (z c : Float64.complex) (r : PrimFloat.float) (m m' n : Z) :
  (m <= m')%Z -> n <> 0%Z ->
  Float64.checkz hypot z c r m = Ok n ->
  Float64.checkz hypot z c r m' = Ok n.
Proof.
  intros Hm Hn. unfold Float64.checkz.
  apply (checkz64_loop_cap hypot c r m m' Hm (Z.to_nat (m + 1 - 1)));
    [reflexivity | lia | exact Hn].
Qed.

Lemma checkz64_cap_witness :
  (3 <= 10)%Z /\ 2%Z <> 0%Z /\
  Float64.checkz Float64.hypot_cr Float64.near_circle Float64.C0
    PrimFloat.one 3 = Ok 2%Z /\
  Float64.checkz Float64.hypot_cr Float64.near_circle Float64.C0
    PrimFloat.one 10 = Ok 2%Z.
Proof.
  assert (H1 : (3 <= 10)%Z) by lia.
  assert (H2 : 2%Z <> 0%Z) by discriminate.
  assert (H3 : Float64.checkz Float64.hypot_cr Float64.near_circle
                 Float64.C0 PrimFloat.one 3 = Ok 2%Z)
    by (vm_compute; reflexivity).
  split; [exact H1 |]. split; [exact H2 |]. split; [exact H3 |].
  exact (checkz64_cap Float64.hypot_cr Float64.near_circle Float64.C0
           PrimFloat.one 3 10 2 H1 H2 H3).
Defined.
